(** * XSD code completion: context resolution engine

    A shallow embedding of [src/XsdCompletion.ts], [src/XsdManager.ts] and
    [CodeSuggestionCache] (monaco-xsd-code-completion), with the properties
    of the context resolver, the tag stack tracker, the namespace registry,
    the schema selector and the suggestion cache.

    Text is a sequence of code units; a code unit is an [ascii] (the units
    below 256).  The regular expressions of the source are kept as syntax
    trees and run by a backtracking matcher that follows the ECMAScript
    matching rules (ordered alternatives, greedy repetition, lookaround in
    both directions). *)

From Stdlib Require Import String Ascii List ZArith Lia Bool DecimalNat DecimalString.
From stdpp Require Import gmap strings list fin_maps.

Local Open Scope string_scope.
Local Open Scope list_scope.

(** ** Regular expressions *)

Module Regex.

(** Members of a character class [[...]]. *)
Inductive cls_item : Type :=
| CChar (c : ascii)
| CRange (lo hi : ascii)
| CSpace.

Inductive regex : Type :=
| REmpty
| RChar (c : ascii)
| RClass (negated : bool) (items : list cls_item)
| RDot
| REnd
| RSeq (r1 r2 : regex)
| RAlt (r1 r2 : regex)
| RStar (r : regex)
| RLook (behind negated : bool) (r : regex).

(** [r+] is one mandatory iteration followed by [r*]. *)
Definition RPlus (r : regex) : regex := RSeq r (RStar r).

(** [r?]: try [r], else nothing. *)
Definition ROpt (r : regex) : regex := RAlt r REmpty.

Fixpoint RChars (cs : list ascii) : regex :=
  match cs with
  | [] => REmpty
  | [c] => RChar c
  | c :: cs' => RSeq (RChar c) (RChars cs')
  end.

(** A literal run of characters. *)
Definition RStr (s : string) : regex := RChars (list_ascii_of_string s).

Definition code (c : ascii) : N := N_of_ascii c.

(** [\s]: TAB, LF, VT, FF, CR, SPACE and NBSP. *)
Definition is_space (c : ascii) : bool :=
  ((9 <=? code c)%N && (code c <=? 13)%N)
  || (code c =? 32)%N || (code c =? 160)%N.

(** Line terminators, which [.] does not match. *)
Definition is_line_terminator (c : ascii) : bool :=
  (code c =? 10)%N || (code c =? 13)%N.

Definition in_item (c : ascii) (i : cls_item) : bool :=
  match i with
  | CChar c' => Ascii.eqb c c'
  | CRange lo hi => (code lo <=? code c)%N && (code c <=? code hi)%N
  | CSpace => is_space c
  end.

Definition in_class (negated : bool) (items : list cls_item) (c : ascii) : bool :=
  xorb negated (existsb (in_item c) items).

(** A position in a text: the code units before it, nearest first, and
    the code units after it. *)
Definition cursor : Type := list ascii * list ascii.

Definition ahead (fwd : bool) (z : cursor) : list ascii :=
  if fwd then snd z else fst z.

(** Read one code unit in the direction of matching. *)
Definition advance (fwd : bool) (z : cursor) : option (ascii * cursor) :=
  if fwd then
    match snd z with
    | c :: r => Some (c, (c :: fst z, r))
    | [] => None
    end
  else
    match fst z with
    | c :: l => Some (c, (l, c :: snd z))
    | [] => None
    end.

Definition same_pos (z z' : cursor) : bool :=
  Nat.eqb (length (snd z)) (length (snd z')).

Definition one {A : Type} (p : ascii -> bool) (fwd : bool) (z : cursor)
    (k : cursor -> option A) : option A :=
  match advance fwd z with
  | Some (c, z') => if p c then k z' else None
  | None => None
  end.

(** Greedy repetition of a matcher [m]: one more iteration when there is
    one that consumes something and lets the rest of the match succeed,
    else the rest of the match from here.  [n] bounds the number of
    iterations. *)
Fixpoint star_loop {A : Type} (m : cursor -> (cursor -> option A) -> option A)
    (k : cursor -> option A) (n : nat) (z : cursor) {struct n} : option A :=
  match n with
  | O => k z
  | S n' =>
      match m z (fun z' => if same_pos z z' then None else star_loop m k n' z') with
      | Some a => Some a
      | None => k z
      end
  end.

(** The matcher, in continuation style: [rmatch r A fwd z k] matches [r]
    at [z] in direction [fwd] and hands the position reached to [k];
    a [None] from [k] makes it backtrack.  An iteration of [*] consumes at
    least one code unit, so one iteration more than there are code units
    ahead is a bound that is never reached. *)
Fixpoint rmatch (r : regex) (A : Type) (fwd : bool) (z : cursor)
    (k : cursor -> option A) {struct r} : option A :=
  match r with
  | REmpty => k z
  | RChar c => one (Ascii.eqb c) fwd z k
  | RClass negated items => one (in_class negated items) fwd z k
  | RDot => one (fun c => negb (is_line_terminator c)) fwd z k
  | REnd => match snd z with [] => k z | _ :: _ => None end
  | RSeq r1 r2 =>
      if fwd then rmatch r1 A fwd z (fun z' => rmatch r2 A fwd z' k)
      else rmatch r2 A fwd z (fun z' => rmatch r1 A fwd z' k)
  | RAlt r1 r2 =>
      match rmatch r1 A fwd z k with
      | Some a => Some a
      | None => rmatch r2 A fwd z k
      end
  | RStar r' =>
      star_loop (fun z' k' => rmatch r' A fwd z' k') k (S (length (ahead fwd z))) z
  | RLook behind negated r' =>
      match rmatch r' unit (negb behind) z (fun _ => Some tt) with
      | Some _ => if negated then None else k z
      | None => if negated then k z else None
      end
  end.

(** One attempt at a given position: the end of the match, if any. *)
Definition match_at (r : regex) (z : cursor) : option cursor :=
  rmatch r cursor true z Some.

(** Number of code units between [z] and a later position [z']. *)
Definition consumed (z z' : cursor) : nat := length (snd z) - length (snd z').

(** [text.match(r)] for a regex without the [g] flag, as a truth value:
    the first position, left to right, where an attempt succeeds. *)
Fixpoint search (r : regex) (before after : list ascii) : bool :=
  match match_at r (before, after) with
  | Some _ => true
  | None =>
      match after with
      | [] => false
      | c :: after' => search r (c :: before) after'
      end
  end.

Definition test (r : regex) (text : string) : bool :=
  search r [] (list_ascii_of_string text).

(** [text.match(r)] for a regex with the [g] flag: every match, left to
    right, each attempt starting where the previous match ended (one
    further when that match was empty).  [skip] counts the code units
    still covered by the previous match. *)
Fixpoint scan (r : regex) (before after : list ascii) (skip : nat)
    {struct after} : list string :=
  match skip with
  | S n =>
      match after with
      | [] => []
      | c :: after' => scan r (c :: before) after' n
      end
  | O =>
      match match_at r (before, after) with
      | Some z' =>
          let len := consumed (before, after) z' in
          string_of_list_ascii (firstn len after)
            :: match after with
               | [] => []
               | c :: after' => scan r (c :: before) after' (pred len)
               end
      | None =>
          match after with
          | [] => []
          | c :: after' => scan r (c :: before) after' 0
          end
      end
  end.

Definition match_all (r : regex) (text : string) : list string :=
  scan r [] (list_ascii_of_string text) 0.

End Regex.

Import Regex.

(** ** Strings and maps of the host language *)

(** The double quote, code unit 34. *)
Definition dquote : ascii := ascii_of_nat 34.

(** [dq s] is [s] with every apostrophe replaced by a double quote, to
    write texts that hold double quotes. *)
Fixpoint dq (s : string) : string :=
  match s with
  | EmptyString => EmptyString
  | String c s' => String (if Ascii.eqb c "'"%char then dquote else c) (dq s')
  end.

Module Js.

(** [s.split(sep)]: [sep_at before after] is the length of the separator
    found at a position, if one starts there.  [piece] holds, last first,
    the code units since the end of the previous separator; [skip] counts
    the code units still inside the separator just found. *)
Fixpoint split_loop (sep_at : list ascii -> list ascii -> option nat)
    (before after piece : list ascii) (skip : nat) {struct after} : list string :=
  match after with
  | [] => [string_of_list_ascii (rev piece)]
  | c :: after' =>
      match skip with
      | S n => split_loop sep_at (c :: before) after' [] n
      | O =>
          match sep_at before after with
          | None => split_loop sep_at (c :: before) after' (c :: piece) 0
          | Some O =>
              match piece with
              | [] => split_loop sep_at (c :: before) after' [c] 0
              | _ :: _ =>
                  string_of_list_ascii (rev piece)
                    :: split_loop sep_at (c :: before) after' [c] 0
              end
          | Some (S n) =>
              string_of_list_ascii (rev piece)
                :: split_loop sep_at (c :: before) after' [] n
          end
      end
  end.

Definition split_with (sep_at : list ascii -> list ascii -> option nat)
    (s : string) : list string :=
  match list_ascii_of_string s with
  | [] => match sep_at [] [] with Some _ => [] | None => [s] end
  | after => split_loop sep_at [] after [] 0
  end.

Fixpoint starts_with (p s : list ascii) : bool :=
  match p, s with
  | [], _ => true
  | c :: p', d :: s' => Ascii.eqb c d && starts_with p' s'
  | _ :: _, [] => false
  end.

(** [s.split(sep)] for a string separator. *)
Definition split (sep s : string) : list string :=
  let sep' := list_ascii_of_string sep in
  split_with (fun _ after => if starts_with sep' after then Some (length sep') else None) s.

(** [s.split(r)] for a regular expression separator. *)
Definition split_re (r : regex) (s : string) : list string :=
  split_with
    (fun before after =>
       match match_at r (before, after) with
       | Some z' => Some (consumed (before, after) z')
       | None => None
       end) s.

(** [a[i]] on an array, for an index that may be negative or too large. *)
Definition at_index {A : Type} (a : list A) (i : Z) : option A :=
  if (i <? 0)%Z then None else nth_error a (Z.to_nat i).

Definition len {A : Type} (a : list A) : Z := Z.of_nat (length a).

(** [a.indexOf(x)], -1 when [x] does not occur. *)
Fixpoint indexOf (a : list string) (x : string) : Z :=
  match a with
  | [] => (-1)%Z
  | y :: a' =>
      if String.eqb y x then 0%Z
      else let i := indexOf a' x in if (i <? 0)%Z then (-1)%Z else (i + 1)%Z
  end.

(** [a.includes(x)]. *)
Definition includes (a : list string) (x : string) : bool :=
  existsb (String.eqb x) a.

(** A [Map] with string keys: the entries in insertion order. *)
Definition Map (V : Type) : Type := list (string * V).

Fixpoint get {V : Type} (m : Map V) (k : string) : option V :=
  match m with
  | [] => None
  | (k', v) :: m' => if String.eqb k' k then Some v else get m' k
  end.

(** [m.set(k, v)]: a key already present keeps its place. *)
Fixpoint set {V : Type} (m : Map V) (k : string) (v : V) : Map V :=
  match m with
  | [] => [(k, v)]
  | (k', v') :: m' =>
      if String.eqb k' k then (k', v) :: m' else (k', v') :: set m' k v
  end.

Definition has {V : Type} (m : Map V) (k : string) : bool :=
  match get m k with Some _ => true | None => false end.

(** Truthiness of a value that is a string or [undefined]. *)
Definition truthy (s : option string) : bool :=
  match s with
  | Some s' => negb (String.eqb s' "")
  | None => false
  end.

End Js.

(** ** XsdCompletion: classification and tag stack *)

(** The kinds of completion.  The file that declares [CompletionType] is
    not among the sources; its members are the ones [XsdCompletion] names. *)
Module CompletionType.
Inductive t : Type :=
| none
| element
| attribute
| closingElement
| incompleteElement
| incompleteAttribute
| snippet.
End CompletionType.

(** The trigger kinds of the editor. *)
Module CompletionTriggerKind.
Inductive t : Type :=
| Invoke
| TriggerCharacter
| TriggerForIncompleteCompletions.
End CompletionTriggerKind.

Record CompletionContext : Type := {
  triggerKind : CompletionTriggerKind.t;
  triggerCharacter : option string
}.

(** [='[^']+$], each ['] standing for a double quote. *)
Definition regexForInsideAttributeValue : regex :=
  RSeq (RStr (dq "='")) (RSeq (RPlus (RClass true [CChar dquote])) REnd).

Definition isInsideAttributeValue (text : string) : bool :=
  test regexForInsideAttributeValue text.

Definition getMatchesForRegex (text : string) (r : regex) : list string :=
  match_all r text.

(** [(?<=\s)[A-Za-z0-9]+] with the [g] flag. *)
Definition regexForAttributes : regex :=
  RSeq (RLook true false (RClass false [CSpace]))
       (RPlus (RClass false [CRange "A" "Z"; CRange "a" "z"; CRange "0" "9"])).

Definition getAttributesFromText (text : string) : list string :=
  getMatchesForRegex text regexForAttributes.

Definition textContainsAttributes (text : string) : bool :=
  (0 <? Js.len (getAttributesFromText text))%Z.

(** [(?<=<|</)[^?\s|/>]+(?!.+/>)] with the [g] flag. *)
Definition regexForTags : regex :=
  RSeq (RLook true false (RAlt (RChar "<") (RStr "</")))
       (RSeq (RPlus (RClass true [CChar "?"; CSpace; CChar "|"; CChar "/"; CChar ">"]))
             (RLook false true (RSeq (RPlus RDot) (RStr "/>")))).

Definition getTagsFromText (text : string) : list string :=
  getMatchesForRegex text regexForTags.

Definition textContainsTags (text : string) : bool :=
  (0 <? Js.len (getTagsFromText text))%Z.

Definition getCompletionTypeForIncompleteCompletion (text : string) : CompletionType.t :=
  if textContainsAttributes text then CompletionType.incompleteAttribute
  else if textContainsTags text then CompletionType.incompleteElement
  else CompletionType.snippet.

Definition getCompletionTypeByTriggerCharacter (triggerCharacter : option string)
    : CompletionType.t :=
  match triggerCharacter with
  | Some "<" => CompletionType.element
  | Some " " => CompletionType.attribute
  | Some "/" => CompletionType.closingElement
  | _ => CompletionType.none
  end.

(** [lineContent] is what the document model returns for the line of the
    cursor. *)
Definition getCompletionType (lineContent : string) (context : CompletionContext)
    : CompletionType.t :=
  let wordsBeforePosition := lineContent in
  if isInsideAttributeValue wordsBeforePosition then CompletionType.none
  else
    match triggerKind context with
    | CompletionTriggerKind.Invoke
    | CompletionTriggerKind.TriggerForIncompleteCompletions =>
        getCompletionTypeForIncompleteCompletion wordsBeforePosition
    | CompletionTriggerKind.TriggerCharacter =>
        getCompletionTypeByTriggerCharacter (triggerCharacter context)
    end.

(** [parentTags.pop()], for its effect on the array. *)
Definition pop (parentTags : list string) : list string := removelast parentTags.

(** [a[a.length - 1]], [undefined] on the empty array. *)
Definition lastOf (a : list string) : option string :=
  Js.at_index a (Js.len a - 1).

Definition is_tag (x : option string) (tag : string) : bool :=
  match x with
  | Some t => String.eqb t tag
  | None => false
  end.

(** [while (parentTags[parentTags.length - 1] !== tag) parentTags.pop()]:
    the array when the loop ends, [None] when [fuel] iterations did not
    end it. *)
Fixpoint popWhileNotLast (fuel : nat) (tag : string) (parentTags : list string)
    : option (list string) :=
  match fuel with
  | O => None
  | S fuel' =>
      if is_tag (lastOf parentTags) tag then Some parentTags
      else popWhileNotLast fuel' tag (pop parentTags)
  end.

(** The body of the [tags.map] callback of [getUnclosedTags].  On an array
    that does not hold [tag] the loop would never end; the guard excludes
    it, and one test more than the array has entries ends the loop on every
    array that holds [tag]. *)
Definition visitTag (parentTags : list string) (tag : string) : option (list string) :=
  if Js.includes parentTags tag then
    match popWhileNotLast (S (length parentTags)) tag parentTags with
    | Some parentTags' => Some (pop parentTags')
    | None => None
    end
  else Some (parentTags ++ [tag]).

Fixpoint visitTags (tags : list string) (parentTags : list string)
    : option (list string) :=
  match tags with
  | [] => Some parentTags
  | tag :: tags' =>
      match visitTag parentTags tag with
      | Some parentTags' => visitTags tags' parentTags'
      | None => None
      end
  end.

(** [None] stands for a call that does not return. *)
Definition getUnclosedTags (text : string) : option (list string) :=
  let tags := getTagsFromText text in
  visitTags tags [].

(** The tag stack in the words of the specification: a token that is in
    the stack removes the entries from the end through its occurrence,
    any other token is appended. *)
Definition stackStep (stack : list string) (token : string) : list string :=
  if Js.includes stack token
  then firstn (Z.to_nat (Js.indexOf stack token)) stack
  else stack ++ [token].

Definition nameMatchedStack (tokens : list string) : list string :=
  fold_left stackStep tokens [].

(** ** The document model of the host editor *)

Record Position : Type := { lineNumber : Z; column : Z }.

Record IRange : Type := {
  startLineNumber : Z;
  startColumn : Z;
  endLineNumber : Z;
  endColumn : Z
}.

Record IWordAtPosition : Type := { word : string }.

Record ITextModel : Type := {
  getLineContent : Z -> string;
  getValueInRange : IRange -> string;
  getWordAtPosition : Position -> option IWordAtPosition;
  getFullModelRange : IRange
}.

(** ** Namespaces and schema locations *)

Record INamespaceInfo : Type := {
  prefix : option string;
  path : string
}.

Definition LF : ascii := ascii_of_nat 10.

(** [(?<=xmlns:)(?!xsi|html)[^:\s|/>]+='[^\s|>]+(?=')] with the [g] flag,
    each ['] standing for a double quote. *)
Definition regexForNamespaces : regex :=
  RSeq (RLook true false (RStr "xmlns:"))
   (RSeq (RLook false true (RAlt (RStr "xsi") (RStr "html")))
     (RSeq (RPlus (RClass true [CChar ":"; CSpace; CChar "|"; CChar "/"; CChar ">"]))
       (RSeq (RStr (dq "='"))
         (RSeq (RPlus (RClass true [CSpace; CChar "|"; CChar ">"]))
               (RLook false false (RChar dquote)))))).

(** [(?<=xmlns=')[^\s|>]+(?=')] with the [g] flag. *)
Definition regexForNoNamespaces : regex :=
  RSeq (RLook true false (RStr (dq "xmlns='")))
       (RSeq (RPlus (RClass true [CSpace; CChar "|"; CChar ">"]))
             (RLook false false (RChar dquote))).

(** The map from namespace URI to prefix.  A match of
    [regexForNamespaces] holds the separator, so [part[1]] is defined. *)
Definition getNamespaces (text : string) : Js.Map string :=
  let namespaceMap :=
    fold_left
      (fun namespaceMap match_ =>
         match Js.split (dq "='") match_ with
         | part0 :: part1 :: _ => Js.set namespaceMap part1 part0
         | _ => namespaceMap
         end)
      (getMatchesForRegex text regexForNamespaces) [] in
  fold_left (fun namespaceMap match_ => Js.set namespaceMap match_ "")
    (getMatchesForRegex text regexForNoNamespaces) namespaceMap.

(** [(?<=(ATTR=\n?\s*'))[^'|>]+(?=')] with the [g] flag, for an attribute
    name [ATTR]. *)
Definition regexForLocations (attr : string) : regex :=
  RSeq (RLook true false
          (RSeq (RStr attr)
            (RSeq (RChar "=")
              (RSeq (ROpt (RChar LF))
                (RSeq (RStar (RClass false [CSpace])) (RChar dquote))))))
       (RSeq (RPlus (RClass true [CChar dquote; CChar "|"; CChar ">"]))
             (RLook false false (RChar dquote))).

Definition regexForNamespacesSchemaLocations : regex :=
  regexForLocations "xsi:schemaLocation".

Definition regexForNoNamespacesSchemaLocations : regex :=
  regexForLocations "xsi:noNamespaceSchemaLocation".

(** [matches.forEach((location, index) => ...)]: the entries at odd
    indices, each set to the entry before it. *)
Fixpoint setLocations (matches rest : list string) (index : Z)
    (m : Js.Map string) : Js.Map string :=
  match rest with
  | [] => m
  | location :: rest' =>
      let m' :=
        if (index mod 2 =? 0)%Z then m
        else
          match Js.at_index matches (index - 1) with
          | Some uri => Js.set m location uri
          | None => m
          end in
      setLocations matches rest' (index + 1) m'
  end.

(** The map from schema path to namespace URI. *)
Definition getNamespacesSchemaLocations (text : string) : Js.Map string :=
  let namespaceSchemaLocationsMap :=
    fold_left
      (fun m match_ =>
         let matches := Js.split_re (RPlus (RClass false [CSpace])) match_ in
         setLocations matches matches 0 m)
      (getMatchesForRegex text regexForNamespacesSchemaLocations) [] in
  fold_left (fun m match_ => Js.set m match_ (String.append "file://" match_))
    (getMatchesForRegex text regexForNoNamespacesSchemaLocations)
    namespaceSchemaLocationsMap.

Definition matchNamespacesAndNamespaceSchemaLocations
    (namespaces namespaceSchemaLocations : Js.Map string) : Js.Map INamespaceInfo :=
  fold_left
    (fun matched '(path, uri) =>
       Js.set matched uri {| prefix := Js.get namespaces uri; path := path |})
    namespaceSchemaLocations [].

Definition getFullText (model : ITextModel) : string :=
  getValueInRange model (getFullModelRange model).

Definition getXsdNamespaces (model : ITextModel) : Js.Map INamespaceInfo :=
  let text := getFullText model in
  let namespaces := getNamespaces text in
  let namespaceSchemaLocations := getNamespacesSchemaLocations text in
  matchNamespacesAndNamespaceSchemaLocations namespaces namespaceSchemaLocations.

Definition getCompletionNamespace (model : ITextModel) (position : Position) : string :=
  let lineContent := getLineContent model (lineNumber position) in
  let tagsInLine := getTagsFromText lineContent in
  match lastOf tagsInLine with
  | Some lastTagInLine =>
      let tagParts := Js.split ":" lastTagInLine in
      if (1 <? Js.len tagParts)%Z
      then match tagParts with tagPart0 :: _ => tagPart0 | [] => "" end
      else ""
  | None => ""
  end.

Definition getTagWithoutNamespace (tag : string) : option string :=
  let tagParts := Js.split ":" tag in
  lastOf tagParts.

(** ** The parent tag *)

Definition getTextUntilPosition (model : ITextModel) (position : Position) : string :=
  getValueInRange model
    {| startLineNumber := 1; startColumn := 1;
       endLineNumber := lineNumber position; endColumn := column position |}.

Definition wordAtPositionIsEqualToLastUnclosedTag
    (wordAtPosition : option IWordAtPosition) (unclosedTags : list string) : bool :=
  match wordAtPosition with
  | Some w => is_tag (lastOf unclosedTags) (word w)
  | None => false
  end.

(** The outer [option] is [None] when [getUnclosedTags] does not return;
    the inner one is [None] for [undefined]. *)
Definition getParentTag (model : ITextModel) (position : Position)
    : option (option string) :=
  let textUntilPosition := getTextUntilPosition model position in
  match getUnclosedTags textUntilPosition with
  | None => None
  | Some unclosedTags =>
      let wordAtPosition := getWordAtPosition model position in
      if wordAtPositionIsEqualToLastUnclosedTag wordAtPosition unclosedTags
      then Some (Js.at_index unclosedTags (Js.len unclosedTags - 2))
      else
        let lineContent := getLineContent model (lineNumber position) in
        let tagsInLine := getTagsFromText lineContent in
        let secondFromTop :=
          match lastOf tagsInLine with
          | Some lastTagInLine =>
              let lastTagInlineWithoutNamespace :=
                Js.at_index (Js.split ":" lastTagInLine) 1 in
              match wordAtPosition with
              | Some w =>
                  Js.truthy lastTagInlineWithoutNamespace
                  && is_tag lastTagInlineWithoutNamespace (word w)
              | None => false
              end
          | None => false
          end in
        if secondFromTop
        then Some (Js.at_index unclosedTags (Js.len unclosedTags - 2))
        else Some (Js.at_index unclosedTags (Js.len unclosedTags - 1))
  end.

(** ** Schema sources and their manager *)

Module CompletionItemKind.
Inductive t : Type :=
| Method
| Property
| Snippet.
End CompletionItemKind.

Record ICompletion : Type := {
  label : option string;
  kind : CompletionItemKind.t;
  detail : string;
  insertText : option string;
  documentation : string
}.

Record IXsd : Type := { xsdPath : string; xsdValue : string }.

(** The schema source, [XsdWorker], is code of the repository that is not
    part of these files; the completion engine uses it through this
    interface. *)
Class XsdWorkerApi : Type := {
  XsdWorker : Type;
  newXsdWorker : IXsd -> XsdWorker;
  withNamespace : XsdWorker -> option string -> XsdWorker;
  doCompletion : XsdWorker -> CompletionType.t -> option string -> list ICompletion
}.

Module XsdManager.
Section Manager.
Context `{XsdWorkerApi}.

(** The field [xsdWorkers]. *)
Definition t : Type := gmap string XsdWorker.

Definition create : t := ∅.

Definition set (m : t) (xsd : IXsd) : t := <[xsdPath xsd := newXsdWorker xsd]> m.

Definition delete (m : t) (path : string) : bool * t :=
  (bool_decide (is_Some (m !! path)), base.delete path m).

Definition update (m : t) (xsd : IXsd) : t := set (snd (delete m (xsdPath xsd))) xsd.

Definition get (m : t) (path : string) : option XsdWorker := m !! path.

Definition has (m : t) (path : string) : bool := bool_decide (is_Some (m !! path)).

End Manager.
End XsdManager.

(** ** Schema selection and the completion pipeline *)

Section Completion.
Context `{XsdWorkerApi}.
Variable xsdManager : XsdManager.t.

(** The requested [namespace] is a string or [undefined].  In the loop of
    the second branch the key of an entry is a string, so the test of the
    key against [undefined] is left out. *)
Definition getXsdWorkersForNamespace (namespaces : Js.Map INamespaceInfo)
    (namespace : option string) : list XsdWorker :=
  let xsdWorkers : list XsdWorker := [] in
  if Js.truthy namespace then
    match namespace with
    | Some ns =>
        match Js.get namespaces ns with
        | Some namespaceInfo =>
            match XsdManager.get xsdManager (path namespaceInfo) with
            | Some xsdWorker => xsdWorkers ++ [withNamespace xsdWorker namespace]
            | None => xsdWorkers
            end
        | None => xsdWorkers
        end
    | None => xsdWorkers
    end
  else
    fold_left
      (fun xsdWorkers '(namespace, namespaceInfo) =>
         if XsdManager.has xsdManager (path namespaceInfo) || String.eqb namespace ""
         then
           match XsdManager.get xsdManager (path namespaceInfo) with
           | Some xsdWorker =>
               xsdWorkers ++ [withNamespace xsdWorker (prefix namespaceInfo)]
           | None => xsdWorkers
           end
         else xsdWorkers)
      namespaces xsdWorkers.

(** A value that is a string or [undefined], inside a template literal. *)
Definition interpolate (s : option string) : string :=
  match s with
  | Some s' => s'
  | None => "undefined"
  end.

Definition getClosingElementCompletion (element : option string) : list ICompletion :=
  [ {| label := element;
       kind := CompletionItemKind.Property;
       detail := "Close tag";
       insertText := element;
       documentation :=
         String.append "Closes the unclosed "
           (String.append (interpolate element) " tag in this file.") |} ].

(** [None] when [getParentTag] does not return. *)
Definition getCompletions (model : ITextModel) (position : Position)
    (context : CompletionContext) : option (list ICompletion) :=
  let completionType :=
    getCompletionType (getLineContent model (lineNumber position)) context in
  match completionType with
  | CompletionType.none => Some []
  | _ =>
      match getParentTag model position with
      | None => None
      | Some parentTag =>
          match completionType with
          | CompletionType.closingElement => Some (getClosingElementCompletion parentTag)
          | _ =>
              let namespaces := getXsdNamespaces model in
              let completionNamespace := getCompletionNamespace model position in
              let xsdWorkers :=
                getXsdWorkersForNamespace namespaces (Some completionNamespace) in
              let parentTag :=
                if Js.truthy parentTag
                then match parentTag with
                     | Some tag => getTagWithoutNamespace tag
                     | None => parentTag
                     end
                else parentTag in
              Some (fold_left
                      (fun completions xsdWorker =>
                         completions ++ doCompletion xsdWorker completionType parentTag)
                      xsdWorkers [])
          end
      end
  end.

End Completion.

(** ** CodeSuggestionCache *)

(** The schema parser behind a cache, with the three queries the cache
    makes.  [call] names one invocation of a query. *)
Module XsdParser.

Record t (DocumentNode : Type) : Type := {
  getRootElements : list DocumentNode;
  getSubElements : string -> list DocumentNode;
  getAttributesForElement : string -> list DocumentNode
}.
Arguments getRootElements {DocumentNode} _.
Arguments getSubElements {DocumentNode} _ _.
Arguments getAttributesForElement {DocumentNode} _ _.

Inductive call : Type :=
| RootElements
| SubElements (parentElement : string)
| AttributesForElement (element : string).

Definition answer {DocumentNode : Type} (xsd : t DocumentNode) (c : call)
    : list DocumentNode :=
  match c with
  | RootElements => getRootElements xsd
  | SubElements parentElement => getSubElements xsd parentElement
  | AttributesForElement element => getAttributesForElement xsd element
  end.

End XsdParser.

Module CodeSuggestionCache.
Section Cache.
Context {DocumentNode : Type}.
Variable xsd : XsdParser.t DocumentNode.

(** The fields of an instance, and [calls], the invocations of the parser
    made so far, oldest first.  The two collections are arrays with
    holes: maps from index to entry. *)
Record state : Type := {
  nodeMap : list string;
  elementCollections : gmap Z (list DocumentNode);
  attributeCollections : gmap Z (list DocumentNode);
  calls : list XsdParser.call
}.

(** A new instance. *)
Definition create : state :=
  {| nodeMap := []; elementCollections := ∅; attributeCollections := ∅; calls := [] |}.

(** Methods read and update the instance. *)
Definition M (A : Type) : Type := state -> A * state.

Definition ret {A : Type} (a : A) : M A := fun s => (a, s).

Definition bind {A B : Type} (m : M A) (f : A -> M B) : M B :=
  fun s => let (a, s') := m s in f a s'.

Notation "x <- c1 ;; c2" := (bind c1 (fun x => c2))
  (at level 100, c1 at next level, right associativity).
Notation "c1 ;;; c2" := (bind c1 (fun _ => c2))
  (at level 100, right associativity).

Definition gets {A : Type} (f : state -> A) : M A := fun s => (f s, s).

Definition modify (f : state -> state) : M unit := fun s => (tt, f s).

(** One invocation of the parser. *)
Definition query (c : XsdParser.call) : M (list DocumentNode) :=
  modify (fun s =>
            {| nodeMap := nodeMap s;
               elementCollections := elementCollections s;
               attributeCollections := attributeCollections s;
               calls := calls s ++ [c] |}) ;;;
  ret (XsdParser.answer xsd c).

(** [this.nodeMap.push(node)] *)
Definition pushNode (node : string) : M unit :=
  modify (fun s =>
            {| nodeMap := nodeMap s ++ [node];
               elementCollections := elementCollections s;
               attributeCollections := attributeCollections s;
               calls := calls s |}).

Definition getIndexForNode (node : string) : M Z :=
  gets (fun s => Js.indexOf (nodeMap s) node).

Definition getElementCollection (element : string) : M (option (list DocumentNode)) :=
  i <- getIndexForNode element ;;
  gets (fun s => elementCollections s !! i).

Definition setElementCollection (element : string) (documentElement : list DocumentNode)
    : M (option (list DocumentNode)) :=
  pushNode element ;;;
  i <- getIndexForNode element ;;
  modify (fun s =>
            {| nodeMap := nodeMap s;
               elementCollections := <[i := documentElement]> (elementCollections s);
               attributeCollections := attributeCollections s;
               calls := calls s |}) ;;;
  getElementCollection element.

Definition getRootElements : M (option (list DocumentNode)) :=
  r <- query XsdParser.RootElements ;;
  setElementCollection "rootElements" r.

(** [a || b] on a value that is an array or [undefined]: an array, empty
    or not, is truthy. *)
Definition orElse {A : Type} (m : M (option A)) (other : M (option A)) : M (option A) :=
  a <- m ;;
  match a with
  | Some v => ret (Some v)
  | None => other
  end.

Definition rootElements : M (option (list DocumentNode)) :=
  orElse (getElementCollection "rootElements") getRootElements.

Definition getSubElements (parentElement : string) : M (option (list DocumentNode)) :=
  r <- query (XsdParser.SubElements parentElement) ;;
  setElementCollection parentElement r.

Definition subElements (parentElement : string) : M (option (list DocumentNode)) :=
  orElse (getElementCollection parentElement) (getSubElements parentElement).

(** [parentElement] is [None] for [undefined]. *)
Definition elements (parentElement : option string) : M (option (list DocumentNode)) :=
  match parentElement with
  | None => rootElements
  | Some parentElement => subElements parentElement
  end.

Definition getAttributeCollection (element : string) : M (option (list DocumentNode)) :=
  i <- getIndexForNode element ;;
  gets (fun s => attributeCollections s !! i).

Definition setAttributeCollection (element : string)
    (documentAttribute : list DocumentNode) : M (option (list DocumentNode)) :=
  pushNode element ;;;
  i <- getIndexForNode element ;;
  modify (fun s =>
            {| nodeMap := nodeMap s;
               elementCollections := elementCollections s;
               attributeCollections := <[i := documentAttribute]> (attributeCollections s);
               calls := calls s |}) ;;;
  getAttributeCollection element.

Definition getAttributes (element : string) : M (option (list DocumentNode)) :=
  r <- query (XsdParser.AttributesForElement element) ;;
  setAttributeCollection element r.

Definition attributes (element : string) : M (option (list DocumentNode)) :=
  orElse (getAttributeCollection element) (getAttributes element).

(** A call of one of the two public methods, and a run of such calls on
    one instance. *)
Inductive request : Type :=
| Elements (parentElement : option string)
| Attributes (element : string).

Definition serve (c : request) : M (option (list DocumentNode)) :=
  match c with
  | Elements parentElement => elements parentElement
  | Attributes element => attributes element
  end.

Definition serveAll (cs : list request) (s : state) : state :=
  fold_left (fun s c => snd (serve c s)) cs s.

(** The key a call is looked up under, with the collection it is looked
    up in ([true] for the elements). *)
Definition keyOf (c : request) : bool * string :=
  match c with
  | Elements None => (true, "rootElements")
  | Elements (Some parentElement) => (true, parentElement)
  | Attributes element => (false, element)
  end.

(** The query a call makes when its key has no entry. *)
Definition queryOf (c : request) : XsdParser.call :=
  match c with
  | Elements None => XsdParser.RootElements
  | Elements (Some parentElement) => XsdParser.SubElements parentElement
  | Attributes element => XsdParser.AttributesForElement element
  end.

(** The entry stored under a key. *)
Definition stored (s : state) (k : bool * string) : option (list DocumentNode) :=
  let i := Js.indexOf (nodeMap s) (snd k) in
  if fst k then elementCollections s !! i else attributeCollections s !! i.

End Cache.
End CodeSuggestionCache.

Module Cache := CodeSuggestionCache.

(** ** Stubs for the examples *)

(** A document of one line, with the word the editor reports under the
    cursor. *)
Definition substring (from to : Z) (s : string) : string :=
  String.substring (Z.to_nat from) (Z.to_nat (to - from)) s.

Definition oneLineModel (line : string) (wordAtCursor : option string) : ITextModel :=
  {| getLineContent := fun _ => line;
     getValueInRange := fun r => substring (startColumn r - 1) (endColumn r - 1) line;
     getWordAtPosition := fun _ =>
       match wordAtCursor with
       | Some w => Some {| word := w |}
       | None => None
       end;
     getFullModelRange :=
       {| startLineNumber := 1; startColumn := 1;
          endLineNumber := 1; endColumn := Z.of_nat (String.length line) + 1 |} |}.

(** The cursor at the end of a one-line document. *)
Definition endOf (line : string) : Position :=
  {| lineNumber := 1; column := Z.of_nat (String.length line) + 1 |}.

(** A schema source that is its path and the prefix it is bound to, and
    that suggests one completion, labelled with its path. *)
Definition stubWorker : XsdWorkerApi :=
  {| XsdWorker := string * option string;
     newXsdWorker := fun xsd => (xsdPath xsd, None);
     withNamespace := fun w ns => (fst w, ns);
     doCompletion := fun w _ _ =>
       [ {| label := Some (fst w); kind := CompletionItemKind.Method; detail := "";
            insertText := Some (fst w); documentation := "" |} ] |}.

Definition typed (c : string) : CompletionContext :=
  {| triggerKind := CompletionTriggerKind.TriggerCharacter; triggerCharacter := Some c |}.

Definition invoked : CompletionContext :=
  {| triggerKind := CompletionTriggerKind.Invoke; triggerCharacter := None |}.

(** The document of the specification's example, and a manager that has
    loaded its schema. *)
Definition exampleDocument : string :=
  dq "<root xmlns:ns='http://example/ns' xsi:schemaLocation='http://example/ns schema/a.xsd'>".

Definition exampleModel : ITextModel := oneLineModel exampleDocument None.

Definition exampleManager : XsdManager.t (H := stubWorker) :=
  XsdManager.set XsdManager.create {| xsdPath := "schema/a.xsd"; xsdValue := "" |}.

(** A parser whose nodes are names: one root element, one child per
    element, one attribute per element. *)
Definition stubParser : XsdParser.t string :=
  {| XsdParser.getRootElements := ["library"];
     XsdParser.getSubElements := fun parentElement => [String.append parentElement "-child"];
     XsdParser.getAttributesForElement := fun element => [String.append element "-id"] |}.

(** ** Predicates on texts used in the statements *)

(** Some code unit that satisfies [q] stands right after one that
    satisfies [p]. *)
Fixpoint adjacent (p q : ascii -> bool) (l : list ascii) : bool :=
  match l with
  | [] => false
  | c :: l' =>
      match l' with
      | d :: _ => p c && q d
      | [] => false
      end || adjacent p q l'
  end.

(** A letter [A] to [Z] or [a] to [z], or a digit. *)
Definition is_alnum (c : ascii) : bool :=
  let n := N_of_ascii c in
  ((65 <=? n)%N && (n <=? 90)%N)
  || ((97 <=? n)%N && (n <=? 122)%N)
  || ((48 <=? n)%N && (n <=? 57)%N).

(** The text holds a letter or digit right after a whitespace character. *)
Definition alnumAfterSpace (text : string) : bool :=
  adjacent is_space is_alnum (list_ascii_of_string text).

(** ** Notions used in the proofs *)

(** [z'] is a position of the text of [z], not before [z] in the
    direction of matching. *)
Definition within (fwd : bool) (z z' : cursor) : Prop :=
  length (fst z') + length (snd z') = length (fst z) + length (snd z)
  /\ length (ahead fwd z') <= length (ahead fwd z).

(** One step of [matchNamespacesAndNamespaceSchemaLocations]. *)
Definition bind_location (namespaces : Js.Map string)
    (matched : Js.Map INamespaceInfo) (entry : string * string) : Js.Map INamespaceInfo :=
  let '(path, uri) := entry in
  Js.set matched uri {| prefix := Js.get namespaces uri; path := path |}.

(** ** States of the cache used in the statements *)

Section CacheStates.
Context {DocumentNode : Type}.
Variable xsd : XsdParser.t DocumentNode.

(** The state after a call whose key has no entry: the key is pushed on
    [nodeMap], the answer of the parser is stored at the index of the key
    in the collection of the call, and the query is recorded. *)
Definition afterMiss (s : @Cache.state DocumentNode) (c : Cache.request)
    : @Cache.state DocumentNode :=
  let k := Cache.keyOf c in
  let nodes := Cache.nodeMap s ++ [snd k] in
  let i := Js.indexOf nodes (snd k) in
  let r := XsdParser.answer xsd (Cache.queryOf c) in
  {| Cache.nodeMap := nodes;
     Cache.elementCollections :=
       if fst k then <[i := r]> (Cache.elementCollections s)
       else Cache.elementCollections s;
     Cache.attributeCollections :=
       if fst k then Cache.attributeCollections s
       else <[i := r]> (Cache.attributeCollections s);
     Cache.calls := Cache.calls s ++ [Cache.queryOf c] |}.

(** Entries of the collections sit at indices of [nodeMap]. *)
Definition wellIndexed (s : @Cache.state DocumentNode) : Prop :=
  (forall i, is_Some (Cache.elementCollections s !! i) ->
             (0 <= i < Js.len (Cache.nodeMap s))%Z)
  /\ (forall i, is_Some (Cache.attributeCollections s !! i) ->
                (0 <= i < Js.len (Cache.nodeMap s))%Z).

End CacheStates.

(** ** Splitting at one character *)

(** The pieces of a text between the occurrences of the character [c];
    [piece] holds, last first, the code units since the last occurrence. *)
Fixpoint fields (c : ascii) (l piece : list ascii) : list string :=
  match l with
  | [] => [string_of_list_ascii (rev piece)]
  | d :: l' =>
      if Ascii.eqb c d then string_of_list_ascii (rev piece) :: fields c l' []
      else fields c l' (d :: piece)
  end.

(** ** Schema locations read in pairs *)

(** The tokens of a schema-location hint taken two by two, a namespace
    URI and then a path; a last token without partner is dropped. *)
Fixpoint locationPairs (tokens : list string) : list (string * string) :=
  match tokens with
  | uri :: path :: rest => (path, uri) :: locationPairs rest
  | _ => []
  end.

(** The path of the last schema location listed for a URI. *)
Definition lastPathOf (uri : string) (locations : Js.Map string) : option string :=
  last (map fst (List.filter (fun entry => String.eqb (snd entry) uri) locations)).

(** The source of a binding, bound to the prefix of the binding, when its
    path is loaded. *)
Definition loadedSource `{XsdWorkerApi} (xsdManager : XsdManager.t)
    (entry : string * INamespaceInfo) : list XsdWorker :=
  match XsdManager.get xsdManager (path (snd entry)) with
  | Some xsdWorker => [withNamespace xsdWorker (prefix (snd entry))]
  | None => []
  end.

(** ** Keys of the queries of the cache *)

(** The key under which the answer to a query is stored. *)
Definition keyOfQuery (q : XsdParser.call) : bool * string :=
  match q with
  | XsdParser.RootElements => (true, "rootElements")
  | XsdParser.SubElements parentElement => (true, parentElement)
  | XsdParser.AttributesForElement element => (false, element)
  end.

(** ** CodeSuggester *)

(** A node of the schema, as the suggester reads it: the fields [name]
    and [documentation] and the answers of [getType()] and
    [isRequired()]. *)
Module DocumentNode.
Record t : Type := {
  name : string;
  documentation : option string;
  getType : string;
  isRequired : bool
}.
End DocumentNode.

Module CodeSuggester.

Inductive ItemKind : Type :=
| Method
| Snippet
| Variable_.

Inductive InsertTextRule : Type :=
| InsertAsSnippet.

Record IMarkdownString : Type := { value : string; isTrusted : bool }.

Record CompletionItem : Type := {
  label : string;
  kind : ItemKind;
  detail : string;
  sortText : option string;
  insertText : string;
  insertTextRules : InsertTextRule;
  preselect : option bool;
  documentation : option IMarkdownString
}.

(** [index.toString()]: the decimal numeral. *)
Definition toString (index : nat) : string :=
  NilEmpty.string_of_uint (Nat.to_uint index).

(** The line feed and the tab of the snippet template. *)
Definition newline : string := String (ascii_of_nat 10) "".
Definition tab : string := String (ascii_of_nat 9) "".

Section Suggester.
Variable xsd : XsdParser.t DocumentNode.t.
(** [turndownService.turndown]. *)
Variable turndown : string -> string.

Definition getElementDetail (withoutTag : bool) : string :=
  if withoutTag then "Insert as snippet" else "".

Definition parseElementInputText (name : string) (withoutTag incomplete : bool) : string :=
  if withoutTag then
    "<" +:+ name +:+ "${1}>" +:+ newline +:+ tab +:+ "${2}" +:+ newline +:+ "</"
      +:+ name +:+ ">"
  else if incomplete then name
  else name +:+ "${1}></" +:+ name.

Definition parseElements (elements : list DocumentNode.t) (withoutTag incomplete : bool)
    : list CompletionItem :=
  imap
    (fun index element =>
       {| label := DocumentNode.name element;
          kind := if withoutTag then Snippet else Method;
          detail := getElementDetail withoutTag;
          sortText := Some (toString index);
          insertText :=
            parseElementInputText (DocumentNode.name element) withoutTag incomplete;
          insertTextRules := InsertAsSnippet;
          preselect := None;
          documentation := None |})
    elements.

(** The suggester keeps one cache; its state is the state of that cache.
    [None] stands for the failure of [map] on [undefined]. *)
Definition elements (parentElement : option string) (withoutTag incomplete : bool)
    : Cache.M (option (list CompletionItem)) :=
  Cache.bind (Cache.elements xsd parentElement)
    (fun r =>
       Cache.ret
         match r with
         | Some nodes => Some (parseElements nodes withoutTag incomplete)
         | None => None
         end).

Definition parseAttributeDocumentation (documentation : option string) : IMarkdownString :=
  {| value := if Js.truthy documentation
              then match documentation with Some d => turndown d | None => "" end
              else "";
     isTrusted := true |}.

Definition parseAttributeInputText (name : string) : string :=
  name +:+ "=" +:+ String dquote "${1}" +:+ String dquote "".

Definition parseAttributes (attributes : list DocumentNode.t) : list CompletionItem :=
  map
    (fun attribute =>
       {| label := DocumentNode.name attribute;
          kind := Variable_;
          detail := DocumentNode.getType attribute;
          sortText := None;
          insertText := parseAttributeInputText (DocumentNode.name attribute);
          insertTextRules := InsertAsSnippet;
          preselect := Some (DocumentNode.isRequired attribute);
          documentation :=
            Some (parseAttributeDocumentation (DocumentNode.documentation attribute)) |})
    attributes.

Definition attributes (element : string) : Cache.M (option (list CompletionItem)) :=
  Cache.bind (Cache.attributes xsd element)
    (fun r =>
       Cache.ret
         match r with
         | Some nodes => Some (parseAttributes nodes)
         | None => None
         end).

End Suggester.
End CodeSuggester.

Section QueriedStates.
Context {DocumentNode : Type}.

(** The queries made so far are distinct, and the answer to each is
    stored. *)
Definition queried (s : @Cache.state DocumentNode) : Prop :=
  NoDup (Cache.calls s)
  /\ forall q, q ∈ Cache.calls s -> is_Some (Cache.stored s (keyOfQuery q)).

End QueriedStates.

(** ** Reserved prefixes *)

(** A text is not a reserved prefix followed by something. *)
Definition unreserved (p : string) : Prop :=
  Js.starts_with (list_ascii_of_string "xsi") (list_ascii_of_string p) = false
  /\ Js.starts_with (list_ascii_of_string "html") (list_ascii_of_string p) = false.

(** * Properties *)

(** ** The tag stack *)

Section TagStack.

Lemma includes_elem_of (a : list string) (x : string) :
  Js.includes a x = true <-> x ∈ a.
Proof.
  unfold Js.includes. rewrite existsb_exists. split.
  - intros (y & Hy & Heq). apply String.eqb_eq in Heq. subst y.
    now apply list_elem_of_In.
  - intros Hx. exists x. split; [now apply list_elem_of_In | apply String.eqb_refl].
Qed.

Lemma lastOf_snoc (l : list string) (x : string) : lastOf (l ++ [x]) = Some x.
Proof.
  unfold lastOf, Js.at_index, Js.len. rewrite length_app. simpl.
  replace (Z.of_nat (length l + 1) - 1)%Z with (Z.of_nat (length l)) by lia.
  destruct (Z.ltb_spec (Z.of_nat (length l)) 0); [lia |].
  rewrite Nat2Z.id, nth_error_app2 by lia.
  now rewrite Nat.sub_diag.
Qed.

Lemma pop_snoc (l : list string) (x : string) : pop (l ++ [x]) = l.
Proof. apply removelast_last. Qed.

Lemma is_tag_true (x : option string) (tag : string) :
  is_tag x tag = true <-> x = Some tag.
Proof.
  destruct x as [t |]; simpl; [| split; discriminate].
  rewrite String.eqb_eq. split; congruence.
Qed.

Lemma snoc_cases (l : list string) : l = [] \/ exists l' y, l = l' ++ [y].
Proof.
  induction l as [| y l' _] using rev_ind; [now left | right; now exists l', y].
Qed.

(** The loop ends at the occurrence of [tag] nearest the end, within one
    test more than there are entries above it. *)
Lemma popWhileNotLast_ends (tag : string) (below above : list string) (fuel : nat) :
  tag ∉ above -> length above < fuel ->
  popWhileNotLast fuel tag (below ++ tag :: above) = Some (below ++ [tag]).
Proof.
  revert above. induction fuel as [| fuel IH]; intros above Hnotin Hfuel; [lia |].
  destruct (snoc_cases above) as [-> | (l' & y & ->)].
  - simpl. rewrite lastOf_snoc. simpl. now rewrite String.eqb_refl.
  - simpl.
    replace (below ++ tag :: l' ++ [y]) with ((below ++ tag :: l') ++ [y])
      by now rewrite <- app_assoc.
    rewrite lastOf_snoc, pop_snoc. simpl.
    destruct (String.eqb_spec y tag) as [-> | Hne].
    + exfalso. apply Hnotin. apply elem_of_app. right. now left.
    + apply IH.
      * intros Hin. apply Hnotin. apply elem_of_app. now left.
      * rewrite length_app in Hfuel. simpl in Hfuel. lia.
Qed.

(** On an array that does not hold [tag] the loop does not end, whatever
    the number of iterations. *)
Lemma popWhileNotLast_spins (tag : string) (parentTags : list string) (fuel : nat) :
  tag ∉ parentTags -> popWhileNotLast fuel tag parentTags = None.
Proof.
  revert parentTags. induction fuel as [| fuel IH]; intros parentTags Hnotin; [reflexivity |].
  cbn [popWhileNotLast].
  destruct (snoc_cases parentTags) as [-> | (l' & y & ->)].
  - cbn. now apply IH.
  - rewrite lastOf_snoc, pop_snoc. cbn [is_tag].
    apply not_elem_of_app in Hnotin as [Hl' Hy].
    destruct (String.eqb_spec y tag) as [-> | _].
    + exfalso. apply Hy. now left.
    + now apply IH.
Qed.

Lemma indexOf_first (below above : list string) (x : string) :
  x ∉ below -> Js.indexOf (below ++ x :: above) x = Z.of_nat (length below).
Proof.
  induction below as [| y below IH]; intros Hnotin; simpl.
  - now rewrite String.eqb_refl.
  - destruct (String.eqb_spec y x) as [-> | Hne].
    + exfalso. apply Hnotin. now left.
    + rewrite IH by (intros Hin; apply Hnotin; now right).
      destruct (Z.ltb_spec (Z.of_nat (length below)) 0); lia.
Qed.

(** On a stack of distinct names one step of the source is one step of
    the name-matched stack, and leaves the names distinct. *)
Lemma visitTag_stackStep (stack : list string) (tag : string) :
  NoDup stack ->
  visitTag stack tag = Some (stackStep stack tag) /\ NoDup (stackStep stack tag).
Proof.
  intros Hnd. unfold visitTag, stackStep.
  destruct (Js.includes stack tag) eqn:Hinc.
  - apply includes_elem_of in Hinc.
    destruct (list_elem_of_split_r _ _ Hinc) as (below & above & -> & Habove).
    apply NoDup_app in Hnd as (Hbelow & Hdisj & Hrest).
    assert (Hnb : tag ∉ below) by (intros Hin; apply (Hdisj _ Hin); now left).
    rewrite popWhileNotLast_ends by (try assumption; rewrite length_app; simpl; lia).
    rewrite pop_snoc, indexOf_first by assumption.
    rewrite Nat2Z.id, take_app_length. now split.
  - split; [reflexivity |].
    apply NoDup_app. repeat split; [assumption | | apply NoDup_singleton].
    intros x Hx Hx'. apply list_elem_of_singleton in Hx'. subst x.
    apply includes_elem_of in Hx. congruence.
Qed.

Lemma visitTags_fold (tags stack : list string) :
  NoDup stack ->
  visitTags tags stack = Some (fold_left stackStep tags stack)
  /\ NoDup (fold_left stackStep tags stack).
Proof.
  revert stack. induction tags as [| tag tags IH]; intros stack Hnd; simpl.
  - now split.
  - destruct (visitTag_stackStep stack tag Hnd) as [-> Hnd']. now apply IH.
Qed.

End TagStack.

(** C5: [getUnclosedTags] returns, on every text, the name-matched stack
    of the tag-name tokens of the text taken in document order: a token
    that is in the stack removes the entries from the end through its
    occurrence, any other token is appended.  On [<a><b></b>] the result
    is [a]; on [<a><b><c></b>] it is [a] too, the dangling [c] dropped. *)
Theorem getUnclosedTags_name_matched_stack :
  (forall text : string,
      getUnclosedTags text = Some (nameMatchedStack (getTagsFromText text)))
  /\ getUnclosedTags "<a><b></b>" = Some ["a"]
  /\ getUnclosedTags "<a><b><c></b>" = Some ["a"].
Proof.
  split; [| split; reflexivity].
  intros text. unfold getUnclosedTags, nameMatchedStack.
  apply visitTags_fold. apply NoDup_nil_2.
Qed.

(** C9: on every text [getUnclosedTags] returns, and the stack it returns
    holds pairwise distinct tag names. *)
Theorem getUnclosedTags_distinct (text : string) :
  exists tags : list string, getUnclosedTags text = Some tags /\ NoDup tags.
Proof.
  exists (fold_left stackStep (getTagsFromText text) []).
  apply visitTags_fold. apply NoDup_nil_2.
Qed.

(** ** Classification by trigger character *)

Lemma getCompletionTypeByTriggerCharacter_single (c : ascii) :
  getCompletionTypeByTriggerCharacter (Some (String c "")) =
    if Ascii.eqb c "<" then CompletionType.element
    else if Ascii.eqb c " " then CompletionType.attribute
    else if Ascii.eqb c "/" then CompletionType.closingElement
    else CompletionType.none.
Proof.
  destruct c as [[] [] [] [] [] [] [] []]; reflexivity.
Qed.

(** C4, as stated, fails: with the line inside an open attribute value the
    character [<] is classified [none], not [element]. *)
Lemma trigger_character_inside_value :
  getCompletionType (dq "<a b='x") (typed "<") = CompletionType.none
  /\ getCompletionType (dq "<a b='x") (typed "<") <> CompletionType.element.
Proof. split; [reflexivity | discriminate]. Qed.

(** C4, amended: on every line that is not inside an open attribute value,
    a trigger that is a single character is classified [element] for [<],
    [attribute] for a space, [closingElement] for [/], and [none] for any
    other character. *)
Theorem getCompletionType_trigger_character (line : string) (c : ascii) :
  isInsideAttributeValue line = false ->
  getCompletionType line (typed (String c "")) =
    if Ascii.eqb c "<" then CompletionType.element
    else if Ascii.eqb c " " then CompletionType.attribute
    else if Ascii.eqb c "/" then CompletionType.closingElement
    else CompletionType.none.
Proof.
  intros Hout. unfold getCompletionType. rewrite Hout.
  unfold typed. cbn [triggerKind triggerCharacter].
  apply getCompletionTypeByTriggerCharacter_single.
Qed.

Lemma getCompletionType_trigger_character_witness :
  isInsideAttributeValue (dq "<a b='x' ") = false
  /\ getCompletionType (dq "<a b='x' ") (typed " ") = CompletionType.attribute.
Proof.
  split; [reflexivity |].
  apply (getCompletionType_trigger_character (dq "<a b='x' ") " "%char).
  reflexivity.
Defined.

(** ** Facts about the matcher *)

Section RegexFacts.

Lemma rmatch_seq (r1 r2 : regex) (A : Type) (z : cursor) (k : cursor -> option A) :
  rmatch (RSeq r1 r2) A true z k = rmatch r1 A true z (fun z' => rmatch r2 A true z' k).
Proof. reflexivity. Qed.

Lemma rmatch_char (c : ascii) (A : Type) (fwd : bool) (z : cursor)
    (k : cursor -> option A) :
  rmatch (RChar c) A fwd z k = one (Ascii.eqb c) fwd z k.
Proof. reflexivity. Qed.

Lemma rmatch_class (negated : bool) (items : list cls_item) (A : Type) (fwd : bool)
    (z : cursor) (k : cursor -> option A) :
  rmatch (RClass negated items) A fwd z k = one (in_class negated items) fwd z k.
Proof. reflexivity. Qed.

Lemma rmatch_star_class (negated : bool) (items : list cls_item) (A : Type)
    (z : cursor) (k : cursor -> option A) :
  rmatch (RStar (RClass negated items)) A true z k =
    star_loop (fun z' k' => one (in_class negated items) true z' k') k
      (S (length (snd z))) z.
Proof. reflexivity. Qed.

Lemma rmatch_end (A : Type) (fwd : bool) (z : cursor) (k : cursor -> option A) :
  rmatch REnd A fwd z k = match snd z with [] => k z | _ :: _ => None end.
Proof. reflexivity. Qed.

Lemma rmatch_look (behind negated : bool) (r : regex) (A : Type) (fwd : bool)
    (z : cursor) (k : cursor -> option A) :
  rmatch (RLook behind negated r) A fwd z k =
    match rmatch r unit (negb behind) z (fun _ => Some tt) with
    | Some _ => if negated then None else k z
    | None => if negated then k z else None
    end.
Proof. reflexivity. Qed.

Lemma one_fwd {A : Type} (p : ascii -> bool) (b a : list ascii)
    (k : cursor -> option A) :
  one p true (b, a) k =
    match a with
    | c :: a' => if p c then k (c :: b, a') else None
    | [] => None
    end.
Proof. unfold one, advance. cbn [fst snd]. now destruct a. Qed.

Lemma one_bwd {A : Type} (p : ascii -> bool) (b a : list ascii)
    (k : cursor -> option A) :
  one p false (b, a) k =
    match b with
    | c :: b' => if p c then k (b', c :: a) else None
    | [] => None
    end.
Proof. unfold one, advance. cbn [fst snd]. now destruct b. Qed.

(** An attempt succeeds somewhere exactly when the search finds it. *)
Lemma search_complete (r : regex) (l1 l2 before : list ascii) :
  is_Some (match_at r (rev l1 ++ before, l2)) -> search r before (l1 ++ l2) = true.
Proof.
  revert before. induction l1 as [| c l1 IH]; intros before [z Hz]; simpl in *.
  - destruct l2; simpl; now rewrite Hz.
  - destruct (match_at r (before, c :: l1 ++ l2)); [reflexivity |].
    apply IH. rewrite <- app_assoc in Hz. simpl in Hz. now exists z.
Qed.

Lemma search_sound (r : regex) (before after : list ascii) :
  search r before after = true ->
  exists l1 l2, after = l1 ++ l2 /\ is_Some (match_at r (rev l1 ++ before, l2)).
Proof.
  revert before. induction after as [| c after IH]; intros before Hs; simpl in Hs.
  - destruct (match_at r (before, [])) as [z |] eqn:Hz; [| discriminate].
    exists [], []. split; [reflexivity | now exists z].
  - destruct (match_at r (before, c :: after)) as [z |] eqn:Hz.
    + exists [], (c :: after). split; [reflexivity | now exists z].
    + destruct (IH _ Hs) as (l1 & l2 & -> & Hm).
      exists (c :: l1), l2. split; [reflexivity |].
      simpl. now rewrite <- app_assoc.
Qed.

(** The global scan finds a match exactly when an attempt succeeds
    somewhere. *)
Lemma scan_nonempty (r : regex) (before after : list ascii) :
  scan r before after 0 <> [] <->
  exists l1 l2, after = l1 ++ l2 /\ is_Some (match_at r (rev l1 ++ before, l2)).
Proof.
  revert before. induction after as [| c after IH]; intros before.
  - simpl. destruct (match_at r (before, [])) as [z |] eqn:Hz.
    + split; [| discriminate]. intros _. exists [], []. split; [reflexivity | now exists z].
    + split; [congruence |]. intros (l1 & l2 & Heq & Hm).
      symmetry in Heq. apply app_eq_nil in Heq as [-> ->]. simpl in Hm.
      rewrite Hz in Hm. now destruct Hm.
  - cbn [scan]. destruct (match_at r (before, c :: after)) as [z |] eqn:Hz.
    + split; [| discriminate]. intros _.
      exists [], (c :: after). split; [reflexivity | now exists z].
    + rewrite IH. split.
      * intros (l1 & l2 & -> & Hm). exists (c :: l1), l2. split; [reflexivity |].
        simpl. now rewrite <- app_assoc.
      * intros (l1 & l2 & Heq & Hm). destruct l1 as [| c' l1].
        -- simpl in Heq, Hm. subst l2. rewrite Hz in Hm. now destruct Hm.
        -- simpl in Heq. injection Heq as <- ->. exists l1, l2.
           split; [reflexivity |]. simpl in Hm. now rewrite <- app_assoc in Hm.
Qed.

Lemma star_loop_fallback {A : Type} (m : cursor -> (cursor -> option A) -> option A)
    (k : cursor -> option A) (n : nat) (z : cursor) :
  is_Some (k z) -> is_Some (star_loop m k n z).
Proof.
  intros Hk. destruct n; simpl; [assumption |].
  destruct (m z _); [eauto | assumption].
Qed.

Lemma same_pos_cons (b a : list ascii) (c : ascii) :
  same_pos (b, c :: a) (c :: b, a) = false.
Proof. unfold same_pos. cbn [snd length]. apply Nat.eqb_neq. lia. Qed.

(** A greedy run over code units of a class reaches the end of the run
    when the rest of the match succeeds there. *)
Lemma star_loop_run {A : Type} (p : ascii -> bool) (k : cursor -> option A)
    (v rest b : list ascii) (n : nat) :
  Forall (fun c => p c = true) v -> length v <= n ->
  is_Some (k (rev v ++ b, rest)) ->
  is_Some (star_loop (fun z' k' => one p true z' k') k n (b, v ++ rest)).
Proof.
  revert b n. induction v as [| c v IH]; intros b n Hall Hn Hk.
  - now apply star_loop_fallback.
  - destruct n as [| n]; [simpl in Hn; lia |].
    apply Forall_cons in Hall as [Hc Hall].
    cbn [star_loop app]. rewrite one_fwd, Hc, same_pos_cons.
    assert (Hrec : is_Some (star_loop (fun z' k' => one p true z' k') k n
                              (c :: b, v ++ rest))).
    { apply IH; [assumption | simpl in Hn; lia |].
      simpl in Hk. now rewrite <- app_assoc in Hk. }
    destruct Hrec as [a ->]. eauto.
Qed.

(** When the rest of the match is the end of the text, a run that
    succeeds has read code units of the class only. *)
Lemma star_loop_to_end (p : ascii -> bool) (n : nat) (b a : list ascii) :
  is_Some (star_loop (fun z' k' => one p true z' k')
             (fun z' => rmatch REnd cursor true z' Some) n (b, a)) ->
  Forall (fun c => p c = true) a.
Proof.
  revert b a. induction n as [| n IH]; intros b a Hs.
  - cbn [star_loop] in Hs. rewrite rmatch_end in Hs. cbn [snd] in Hs.
    destruct a; [constructor | now destruct Hs].
  - cbn [star_loop] in Hs. rewrite one_fwd, rmatch_end in Hs. cbn [snd] in Hs.
    destruct a as [| c a]; [constructor |].
    destruct (p c) eqn:Hc.
    + rewrite same_pos_cons in Hs.
      destruct (star_loop _ _ n (c :: b, a)) eqn:Hrec; [| now destruct Hs].
      constructor; [assumption |]. apply (IH (c :: b)). rewrite Hrec. eauto.
    + now destruct Hs.
Qed.

End RegexFacts.

(** ** The bound on the iterations of a repetition is never reached *)

Section StarBound.

Lemma within_refl (fwd : bool) (z : cursor) : within fwd z z.
Proof. split; lia. Qed.

Lemma within_trans (fwd : bool) (z1 z2 z3 : cursor) :
  within fwd z1 z2 -> within fwd z2 z3 -> within fwd z1 z3.
Proof. intros [? ?] [? ?]. split; lia. Qed.

Lemma advance_within (fwd : bool) (z z' : cursor) (c : ascii) :
  advance fwd z = Some (c, z') -> within fwd z z'.
Proof.
  destruct z as [b a]. unfold advance, within, ahead.
  destruct fwd; cbn [fst snd]; [destruct a | destruct b]; intros Heq;
    try discriminate; injection Heq as _ <-; cbn [fst snd length]; lia.
Qed.

Lemma one_ext {A : Type} (p : ascii -> bool) (fwd : bool) (z : cursor)
    (k k' : cursor -> option A) :
  (forall z', within fwd z z' -> k z' = k' z') -> one p fwd z k = one p fwd z k'.
Proof.
  intros Hk. unfold one. destruct (advance fwd z) as [[c z'] |] eqn:Hadv; [| reflexivity].
  destruct (p c); [| reflexivity]. apply Hk. now apply (advance_within _ _ _ c).
Qed.

Lemma star_loop_ext {A : Type} (fwd : bool)
    (m : cursor -> (cursor -> option A) -> option A) :
  (forall z k k', (forall z', within fwd z z' -> k z' = k' z') -> m z k = m z k') ->
  forall n z k k',
    (forall z', within fwd z z' -> k z' = k' z') ->
    star_loop m k n z = star_loop m k' n z.
Proof.
  intros Hm. induction n as [| n IH]; intros z k k' Hk; cbn [star_loop].
  - apply Hk, within_refl.
  - rewrite (Hk z (within_refl _ _)).
    erewrite (Hm z); [reflexivity |].
    intros z' Hz'. cbv beta. destruct (same_pos z z'); [reflexivity |].
    apply IH. intros z'' Hz''. apply Hk. now apply (within_trans _ _ z').
Qed.

(** The matcher asks its continuation about positions of the same text
    that are not before the one it starts from. *)
Lemma rmatch_ext (r : regex) :
  forall (A : Type) (fwd : bool) (z : cursor) (k k' : cursor -> option A),
    (forall z', within fwd z z' -> k z' = k' z') ->
    rmatch r A fwd z k = rmatch r A fwd z k'.
Proof.
  induction r as [| c | negated items | | | r1 IH1 r2 IH2 | r1 IH1 r2 IH2 | r IH
                 | behind negated r IH];
    intros A fwd z k k' Hk; cbn [rmatch].
  - apply Hk, within_refl.
  - now apply one_ext.
  - now apply one_ext.
  - now apply one_ext.
  - destruct (snd z); [apply Hk, within_refl | reflexivity].
  - destruct fwd.
    + apply IH1. intros z' Hz'. apply IH2. intros z'' Hz''.
      apply Hk. now apply (within_trans _ _ z').
    + apply IH2. intros z' Hz'. apply IH1. intros z'' Hz''.
      apply Hk. now apply (within_trans _ _ z').
  - rewrite (IH1 A fwd z k k' Hk), (IH2 A fwd z k k' Hk). reflexivity.
  - apply (star_loop_ext fwd); [| assumption].
    intros z0 k0 k0' Hk0. now apply IH.
  - rewrite (Hk z (within_refl _ _)). reflexivity.
Qed.

Lemma within_moved (fwd : bool) (z z' : cursor) :
  within fwd z z' -> same_pos z z' = false ->
  length (ahead fwd z') < length (ahead fwd z).
Proof.
  unfold within, same_pos, ahead. intros [Htotal Hle] Hne.
  apply Nat.eqb_neq in Hne. destruct fwd; lia.
Qed.

(** Any bound above the number of code units ahead gives the same
    result. *)
Lemma star_loop_bound (r : regex) (A : Type) (fwd : bool) (k : cursor -> option A) :
  forall (n1 n2 : nat) (z : cursor),
    length (ahead fwd z) < n1 -> length (ahead fwd z) < n2 ->
    star_loop (fun z' k' => rmatch r A fwd z' k') k n1 z
    = star_loop (fun z' k' => rmatch r A fwd z' k') k n2 z.
Proof.
  induction n1 as [| n1 IH]; intros n2 z H1 H2; [lia |].
  destruct n2 as [| n2]; [lia |]. cbn [star_loop].
  erewrite (rmatch_ext r A fwd z); [reflexivity |].
  intros z' Hz'. cbv beta. destruct (same_pos z z') eqn:Hpos; [reflexivity |].
  pose proof (within_moved fwd z z' Hz' Hpos). apply IH; lia.
Qed.

Lemma rmatch_star_bound (r : regex) (A : Type) (fwd : bool) (z : cursor)
    (k : cursor -> option A) (n : nat) :
  length (ahead fwd z) < n ->
  rmatch (RStar r) A fwd z k = star_loop (fun z' k' => rmatch r A fwd z' k') k n z.
Proof. intros Hn. cbn [rmatch]. apply star_loop_bound; lia. Qed.

End StarBound.

(** ** Inside an open attribute value *)

Section InsideAttributeValue.

Lemma in_class_not_quote (c : ascii) :
  in_class true [CChar dquote] c = true <-> c <> dquote.
Proof.
  unfold in_class. cbn [existsb in_item]. rewrite orb_false_r.
  destruct (Ascii.eqb_spec c dquote); simpl; split; congruence.
Qed.

Lemma Forall_not_quote (v : list ascii) :
  Forall (fun c => in_class true [CChar dquote] c = true) v <-> dquote ∉ v.
Proof.
  rewrite Forall_forall. split.
  - intros Hall Hin. apply (proj1 (in_class_not_quote dquote)); [| reflexivity].
    now apply Hall.
  - intros Hnot c Hc. apply in_class_not_quote. intros ->. contradiction.
Qed.

(** An attempt of [regexForInsideAttributeValue] succeeds exactly before
    an equals sign, a quote, and one or more code units other than the
    quote that run to the end of the text. *)
Lemma match_at_insideAttributeValue (b a : list ascii) :
  is_Some (match_at regexForInsideAttributeValue (b, a)) <->
  exists c v, a = "="%char :: dquote :: c :: v /\ dquote ∉ c :: v.
Proof.
  unfold match_at, regexForInsideAttributeValue.
  change (RStr (dq "='")) with (RSeq (RChar "=") (RChar dquote)).
  unfold RPlus. rewrite !rmatch_seq, rmatch_char, one_fwd.
  destruct a as [| c1 a].
  { split; [intros [? ?]; discriminate | intros (? & ? & ? & _); discriminate]. }
  destruct (Ascii.eqb_spec "=" c1) as [<- |].
  2:{ split; [intros [? ?]; discriminate | intros (? & ? & ? & _); congruence]. }
  rewrite rmatch_char, one_fwd.
  destruct a as [| c2 a].
  { split; [intros [? ?]; discriminate | intros (? & ? & ? & _); discriminate]. }
  destruct (Ascii.eqb_spec dquote c2) as [<- |].
  2:{ split; [intros [? ?]; discriminate | intros (? & ? & ? & _); congruence]. }
  rewrite !rmatch_seq, rmatch_class, one_fwd.
  destruct a as [| c v].
  { split; [intros [? ?]; discriminate | intros (? & ? & ? & _); discriminate]. }
  destruct (in_class true [CChar dquote] c) eqn:Hc.
  2:{ split; [intros [? ?]; discriminate |].
      intros (c' & v' & Heq & Hnot). injection Heq as <- <-.
      apply Forall_not_quote in Hnot. apply Forall_cons in Hnot as [Hc' _]. congruence. }
  rewrite rmatch_star_class. cbn [snd].
  split.
  - intros Hs. apply star_loop_to_end in Hs.
    exists c, v. split; [reflexivity |]. apply Forall_not_quote. now constructor.
  - intros (c' & v' & Heq & Hnot). injection Heq as <- <-.
    apply Forall_not_quote in Hnot. apply Forall_cons in Hnot as [_ Hv].
    rewrite <- (app_nil_r v) at 2.
    apply star_loop_run; [assumption | lia |].
    rewrite rmatch_end. cbn [snd]. eauto.
Qed.

End InsideAttributeValue.

Section Strings.

Lemma list_ascii_of_string_app (s1 s2 : string) :
  list_ascii_of_string (s1 +:+ s2) = list_ascii_of_string s1 ++ list_ascii_of_string s2.
Proof. induction s1 as [| c s1 IH]; simpl; [reflexivity | now rewrite IH]. Qed.

Lemma string_of_list_ascii_app (l1 l2 : list ascii) :
  string_of_list_ascii (l1 ++ l2) = string_of_list_ascii l1 +:+ string_of_list_ascii l2.
Proof. induction l1 as [| c l1 IH]; simpl; [reflexivity | now rewrite IH]. Qed.

Lemma append_assoc (s1 s2 s3 : string) : (s1 +:+ s2) +:+ s3 = s1 +:+ s2 +:+ s3.
Proof.
  induction s1 as [| c s1 IH]; [reflexivity |].
  change (String c ((s1 +:+ s2) +:+ s3) = String c (s1 +:+ s2 +:+ s3)). now f_equal.
Qed.

Lemma list_ascii_of_string_nil (s : string) : list_ascii_of_string s = [] <-> s = "".
Proof. destruct s; simpl; split; congruence. Qed.

End Strings.

Section InsideAttributeValueText.

(** [isInsideAttributeValue] holds exactly of the texts that end with an
    equals sign, a quote and one or more code units other than the quote. *)
Lemma isInsideAttributeValue_iff (text : string) :
  isInsideAttributeValue text = true <->
  exists before value : string,
    text = before +:+ dq "='" +:+ value
    /\ value <> "" /\ dquote ∉ list_ascii_of_string value.
Proof.
  unfold isInsideAttributeValue, test. split.
  - intros Hs. apply search_sound in Hs as (l1 & l2 & Heq & Hm).
    apply match_at_insideAttributeValue in Hm as (c & v & -> & Hnot).
    exists (string_of_list_ascii l1), (string_of_list_ascii (c :: v)).
    split; [| split].
    + rewrite <- (string_of_list_ascii_of_string text), Heq.
      now rewrite string_of_list_ascii_app.
    + discriminate.
    + now rewrite list_ascii_of_string_of_list_ascii.
  - intros (before & value & -> & Hne & Hnot).
    rewrite !list_ascii_of_string_app.
    apply search_complete. apply match_at_insideAttributeValue.
    destruct (list_ascii_of_string value) as [| c v] eqn:Hv.
    + apply list_ascii_of_string_nil in Hv. contradiction.
    + exists c, v. split; [reflexivity | assumption].
Qed.

End InsideAttributeValueText.

(** C3, as stated, fails: right after the opener, with no character of the
    value typed yet, the line is not taken to be inside an attribute value,
    and the character [<] is classified [element]. *)
Lemma opener_without_value_not_inside :
  isInsideAttributeValue (dq "<a b='") = false
  /\ getCompletionType (dq "<a b='") (typed "<") = CompletionType.element.
Proof. split; reflexivity. Qed.

(** [getCompletionType] hands the whole line of the cursor to the test,
    under the name [wordsBeforePosition], not the text before the cursor:
    with the cursor after the space in the value of [<a b='x '>] the text
    before the cursor ends inside an open value, yet the quote after the
    cursor makes the test fail and the space is classified as
    [attribute]. *)
Lemma closed_after_cursor_not_inside :
  isInsideAttributeValue (dq "<a b='x ") = true
  /\ isInsideAttributeValue (dq "<a b='x '>") = false
  /\ getCompletionType (dq "<a b='x '>") (typed " ") = CompletionType.attribute.
Proof. repeat split; reflexivity. Qed.

(** C3, amended: when the text before the cursor ends with an
    attribute-value opener (an equals sign and a quote) followed by one or
    more characters none of which is a quote, and no quote follows the
    cursor on its line, the classification is [none] for every trigger,
    and the pipeline returns no suggestion.  Nothing is stated for a line
    with a quote after the cursor. *)
Theorem inside_open_attribute_value_none `{XsdWorkerApi}
    (xsdManager : XsdManager.t) (model : ITextModel) (position : Position)
    (context : CompletionContext) (before value afterCursor : string) :
  getLineContent model (lineNumber position)
    = (before +:+ dq "='" +:+ value) +:+ afterCursor ->
  column position = (Z.of_nat (String.length (before +:+ dq "='" +:+ value)) + 1)%Z ->
  value <> "" ->
  (dquote ∉ list_ascii_of_string value) ->
  (dquote ∉ list_ascii_of_string afterCursor) ->
  getCompletionType (getLineContent model (lineNumber position)) context
    = CompletionType.none
  /\ getCompletions xsdManager model position context = Some [].
Proof.
  intros Hline _ Hne Hnot Hafter.
  assert (Hin : isInsideAttributeValue (getLineContent model (lineNumber position)) = true).
  { apply isInsideAttributeValue_iff. exists before, (value +:+ afterCursor).
    split; [| split].
    - now rewrite Hline, !append_assoc.
    - destruct value; [contradiction | discriminate].
    - rewrite list_ascii_of_string_app. intros Hq.
      apply elem_of_app in Hq as [Hq | Hq]; contradiction. }
  assert (Hnone : getCompletionType (getLineContent model (lineNumber position)) context
                  = CompletionType.none).
  { unfold getCompletionType. now rewrite Hin. }
  split; [assumption |].
  unfold getCompletions. now rewrite Hnone.
Qed.

Lemma inside_open_attribute_value_none_witness :
  let line := dq "status='open tag <b>" in
  let position := {| lineNumber := 1; column := 19 |} in
  getCompletionType line (typed "<") = CompletionType.none
  /\ getCompletions (H := stubWorker) XsdManager.create
       (oneLineModel line None) position (typed "<") = Some [].
Proof.
  apply (inside_open_attribute_value_none (H := stubWorker) XsdManager.create
           (oneLineModel (dq "status='open tag <b>") None)
           {| lineNumber := 1; column := 19 |} (typed "<")
           "status" "open tag <" "b>").
  - reflexivity.
  - reflexivity.
  - discriminate.
  - intros Hin. repeat (apply elem_of_cons in Hin as [Hin | Hin]; [discriminate |]).
    now apply elem_of_nil in Hin.
  - intros Hin. repeat (apply elem_of_cons in Hin as [Hin | Hin]; [discriminate |]).
    now apply elem_of_nil in Hin.
Defined.

(** ** Classification of an invoked completion *)

Section IncompleteCompletion.

Lemma adjacent_iff (p q : ascii -> bool) (l : list ascii) :
  adjacent p q l = true <->
  exists l1 c d l2, l = l1 ++ c :: d :: l2 /\ p c = true /\ q d = true.
Proof.
  induction l as [| c l IH]; simpl.
  - split; [discriminate |]. intros (l1 & ? & ? & ? & Heq & _). now destruct l1.
  - rewrite orb_true_iff, IH. split.
    + intros [Hhere | (l1 & c' & d & l2 & -> & Hp & Hq)].
      * destruct l as [| d l]; [discriminate |].
        apply andb_true_iff in Hhere as [Hp Hq]. now exists [], c, d, l.
      * now exists (c :: l1), c', d, l2.
    + intros (l1 & c' & d & l2 & Heq & Hp & Hq). destruct l1 as [| c0 l1].
      * simpl in Heq. injection Heq as <- ->. left. now rewrite Hp, Hq.
      * simpl in Heq. injection Heq as <- ->. right. now exists l1, c', d, l2.
Qed.

Lemma in_class_space (c : ascii) : in_class false [CSpace] c = is_space c.
Proof. unfold in_class. cbn [existsb in_item]. now rewrite orb_false_r. Qed.

Lemma in_class_alnum (c : ascii) :
  in_class false [CRange "A" "Z"; CRange "a" "z"; CRange "0" "9"] c = is_alnum c.
Proof.
  unfold in_class, is_alnum. cbn [existsb in_item xorb].
  rewrite orb_false_r, orb_assoc. reflexivity.
Qed.

(** An attempt of [regexForAttributes] succeeds exactly between a
    whitespace character and a letter or digit. *)
Lemma match_at_attributes (b a : list ascii) :
  is_Some (match_at regexForAttributes (b, a)) <->
  (exists c b', b = c :: b' /\ is_space c = true)
  /\ (exists d a', a = d :: a' /\ is_alnum d = true).
Proof.
  unfold match_at, regexForAttributes, RPlus.
  rewrite rmatch_seq, rmatch_look, rmatch_class. cbn [negb]. rewrite one_bwd.
  destruct b as [| c b'].
  { split; [intros [? ?]; discriminate | intros [(? & ? & ? & _) _]; discriminate]. }
  rewrite in_class_space. destruct (is_space c) eqn:Hc.
  2:{ split; [intros [? ?]; discriminate |].
      intros [(? & ? & Heq & Hs) _]. injection Heq as <- <-. congruence. }
  rewrite rmatch_seq, rmatch_class, one_fwd.
  destruct a as [| d a'].
  { split; [intros [? ?]; discriminate | intros [_ (? & ? & ? & _)]; discriminate]. }
  rewrite in_class_alnum. destruct (is_alnum d) eqn:Hd.
  2:{ split; [intros [? ?]; discriminate |].
      intros [_ (? & ? & Heq & Hs)]. injection Heq as <- <-. congruence. }
  split.
  - intros _. split; [now exists c, b' | now exists d, a'].
  - intros _. rewrite rmatch_star_class. apply star_loop_fallback. eauto.
Qed.

Lemma textContainsAttributes_alnumAfterSpace (text : string) :
  textContainsAttributes text = alnumAfterSpace text.
Proof.
  apply eq_true_iff_eq.
  unfold textContainsAttributes, getAttributesFromText, getMatchesForRegex, match_all,
    alnumAfterSpace.
  rewrite adjacent_iff.
  transitivity (scan regexForAttributes [] (list_ascii_of_string text) 0 <> []).
  { unfold Js.len. destruct (scan _ _ _ _); simpl; split; intros; easy. }
  rewrite scan_nonempty. split.
  - intros (l1 & l2 & Heq & Hm).
    apply match_at_attributes in Hm as [(c & b' & Hb & Hc) (d & a' & -> & Hd)].
    rewrite app_nil_r in Hb.
    exists (rev b'), c, d, a'. split; [| now split].
    rewrite Heq. rewrite <- (rev_involutive l1), Hb. simpl.
    now rewrite <- app_assoc.
  - intros (l1 & c & d & l2 & Heq & Hc & Hd).
    exists (l1 ++ [c]), (d :: l2). split; [now rewrite <- app_assoc |].
    apply match_at_attributes. rewrite rev_unit. simpl.
    split; [now exists c, (rev l1 ++ []) | now exists d, l2].
Qed.

End IncompleteCompletion.

(** C7, as stated, fails: a line with no tag opener and no tag-name token
    is classified [incompleteAttribute] as soon as a letter follows a
    space. *)
Lemma invoked_without_tag_opener :
  getCompletionType "hello world" invoked = CompletionType.incompleteAttribute
  /\ getTagsFromText "hello world" = []
  /\ "<"%char ∉ list_ascii_of_string "hello world".
Proof.
  split; [reflexivity | split; [reflexivity |]].
  intros Hin. repeat (apply elem_of_cons in Hin as [Hin | Hin]; [discriminate |]).
  now apply elem_of_nil in Hin.
Qed.

(** C7, amended: on every line that is not inside an open attribute value,
    a trigger that is not a character (an explicit invocation or the
    continuation of an incomplete list) is classified
    [incompleteAttribute] exactly when the line holds a letter or digit
    right after a whitespace character, with or without a tag opener
    before it; otherwise [incompleteElement] when the line holds one or
    more tag-name tokens; otherwise [snippet]. *)
Theorem getCompletionType_invoked (line : string) (context : CompletionContext) :
  isInsideAttributeValue line = false ->
  triggerKind context <> CompletionTriggerKind.TriggerCharacter ->
  getCompletionType line context =
    if alnumAfterSpace line then CompletionType.incompleteAttribute
    else match getTagsFromText line with
         | _ :: _ => CompletionType.incompleteElement
         | [] => CompletionType.snippet
         end.
Proof.
  intros Hout Hkind. unfold getCompletionType. rewrite Hout.
  assert (Hgoal : getCompletionTypeForIncompleteCompletion line =
                  if alnumAfterSpace line then CompletionType.incompleteAttribute
                  else match getTagsFromText line with
                       | _ :: _ => CompletionType.incompleteElement
                       | [] => CompletionType.snippet
                       end).
  { unfold getCompletionTypeForIncompleteCompletion.
    rewrite textContainsAttributes_alnumAfterSpace.
    destruct (alnumAfterSpace line); [reflexivity |].
    unfold textContainsTags. now destruct (getTagsFromText line). }
  destruct (triggerKind context); [assumption | contradiction | assumption].
Qed.

Lemma getCompletionType_invoked_witness :
  getCompletionType "<book" invoked = CompletionType.incompleteElement.
Proof.
  apply (getCompletionType_invoked "<book" invoked); [reflexivity | discriminate].
Defined.

(** ** The namespace registry *)

Section Namespaces.

Lemma get_set {V : Type} (m : Js.Map V) (k k' : string) (v : V) :
  Js.get (Js.set m k v) k' = if String.eqb k k' then Some v else Js.get m k'.
Proof.
  induction m as [| [k0 v0] m IH]; simpl.
  - reflexivity.
  - destruct (String.eqb_spec k0 k) as [-> | Hne]; simpl.
    + now destruct (String.eqb k k').
    + destruct (String.eqb_spec k0 k') as [-> | Hne'].
      * destruct (String.eqb_spec k k'); [congruence | reflexivity].
      * apply IH.
Qed.

Lemma keys_set {V : Type} (m : Js.Map V) (k : string) (v : V) :
  map fst (Js.set m k v) =
    if Js.has m k then map fst m else map fst m ++ [k].
Proof.
  unfold Js.has. induction m as [| [k0 v0] m IH]; simpl; [reflexivity |].
  destruct (String.eqb_spec k0 k) as [-> | Hne]; simpl; [reflexivity |].
  rewrite IH. now destruct (Js.get m k).
Qed.

Lemma has_elem_of {V : Type} (m : Js.Map V) (k : string) :
  Js.has m k = true <-> k ∈ map fst m.
Proof.
  unfold Js.has. induction m as [| [k0 v0] m IH]; simpl.
  - split; [discriminate | intros Hin; now apply elem_of_nil in Hin].
  - rewrite elem_of_cons. destruct (String.eqb_spec k0 k) as [-> | Hne].
    + split; [now left | reflexivity].
    + rewrite IH. split; [now right | intros [-> | Hin]; [congruence | assumption]].
Qed.

Lemma keys_set_NoDup {V : Type} (m : Js.Map V) (k : string) (v : V) :
  NoDup (map fst m) -> NoDup (map fst (Js.set m k v)).
Proof.
  intros Hnd. rewrite keys_set. destruct (Js.has m k) eqn:Hhas; [assumption |].
  apply NoDup_app. repeat split; [assumption | | apply NoDup_singleton].
  intros x Hx Hx'. apply list_elem_of_singleton in Hx'. subst x.
  apply has_elem_of in Hx. congruence.
Qed.

Lemma matched_get (namespaces locations : Js.Map string)
    (matched : Js.Map INamespaceInfo) (uri : string) :
  Js.get (fold_left (bind_location namespaces) locations matched) uri =
    match lastPathOf uri locations with
    | Some p => Some {| prefix := Js.get namespaces uri; path := p |}
    | None => Js.get matched uri
    end.
Proof.
  unfold lastPathOf. revert matched.
  induction locations as [| [p u] locations IH]; intros matched; [reflexivity |].
  cbn [fold_left bind_location List.filter snd]. rewrite IH, get_set.
  destruct (String.eqb_spec u uri) as [-> | Hne]; [| reflexivity].
  cbn [map fst].
  destruct (map fst (List.filter _ locations)) as [| q qs]; [reflexivity |].
  rewrite last_cons_cons.
  destruct (last (q :: qs)) eqn:Hlast; [reflexivity |].
  now apply last_None in Hlast.
Qed.

Lemma matched_keys_NoDup (namespaces locations : Js.Map string)
    (matched : Js.Map INamespaceInfo) :
  NoDup (map fst matched) ->
  NoDup (map fst (fold_left (bind_location namespaces) locations matched)).
Proof.
  revert matched. induction locations as [| [p u] locations IH]; intros matched Hnd;
    [assumption |].
  cbn [fold_left]. apply IH. unfold bind_location. now apply keys_set_NoDup.
Qed.

(** A URI has a last path exactly when the map of schema locations holds
    it as the URI of some path. *)
Lemma lastPathOf_is_Some (uri : string) (locations : Js.Map string) :
  is_Some (lastPathOf uri locations) <-> uri ∈ map snd locations.
Proof.
  unfold lastPathOf. induction locations as [| [p u] locations IH].
  - split; [intros [? Hs]; discriminate | intros Hin; now apply elem_of_nil in Hin].
  - cbn [List.filter map snd]. rewrite elem_of_cons.
    destruct (String.eqb_spec u uri) as [-> | Hne].
    + split; [now left | intros _].
      cbn [map fst].
      destruct (map fst (List.filter _ locations)) as [| q qs]; [now eexists |].
      rewrite last_cons_cons.
      destruct (last (q :: qs)) eqn:Hlast; [now eexists |].
      now apply last_None in Hlast.
    + rewrite IH. split; [now right | intros [-> | Hin]; [congruence | assumption]].
Qed.

End Namespaces.

(** C1, as stated, fails: the map returned for the example document has
    no key [schema/a.xsd]. *)
Lemma namespaces_not_keyed_by_path :
  Js.get (getXsdNamespaces exampleModel) "schema/a.xsd" = None.
Proof. reflexivity. Qed.

(** C1, amended: the map that [getXsdNamespaces] returns is keyed by
    namespace URI as the scan of the schema locations records it, not by
    schema path.  With [getNamespacesSchemaLocations] the map from path to
    URI read from the text and [getNamespaces] the map from URI to prefix
    read from the text: a lookup under a key finds a binding exactly when
    the first map records that key as the URI of some path; the binding
    holds the last path recorded for that URI and the prefix that the
    second map holds for it, absent if it holds none; the keys are the
    URIs of the first map, each once.  For the example document the map is
    the one entry [http://example/ns] with prefix [ns] and path
    [schema/a.xsd]. *)
Theorem getXsdNamespaces_keyed_by_uri :
  (forall (model : ITextModel) (uri : string),
      Js.get (getXsdNamespaces model) uri =
        match lastPathOf uri (getNamespacesSchemaLocations (getFullText model)) with
        | Some p =>
            Some {| prefix := Js.get (getNamespaces (getFullText model)) uri; path := p |}
        | None => None
        end)
  /\ (forall (model : ITextModel) (uri : string),
        uri ∈ map fst (getXsdNamespaces model) <->
        uri ∈ map snd (getNamespacesSchemaLocations (getFullText model)))
  /\ (forall model : ITextModel, NoDup (map fst (getXsdNamespaces model)))
  /\ getXsdNamespaces exampleModel =
       [("http://example/ns", {| prefix := Some "ns"; path := "schema/a.xsd" |})].
Proof.
  assert (Hget : forall (model : ITextModel) (uri : string),
      Js.get (getXsdNamespaces model) uri =
        match lastPathOf uri (getNamespacesSchemaLocations (getFullText model)) with
        | Some p =>
            Some {| prefix := Js.get (getNamespaces (getFullText model)) uri; path := p |}
        | None => None
        end).
  { intros model uri.
    apply (matched_get (getNamespaces (getFullText model))
             (getNamespacesSchemaLocations (getFullText model)) []). }
  split; [exact Hget | split; [| split; [| reflexivity]]].
  - intros model uri. rewrite <- has_elem_of, <- lastPathOf_is_Some.
    unfold Js.has. rewrite Hget.
    destruct (lastPathOf uri _); split; intros Hs;
      [now eexists | reflexivity | discriminate | now destruct Hs].
  - intros model.
    apply (matched_keys_NoDup (getNamespaces (getFullText model))
             (getNamespacesSchemaLocations (getFullText model)) []).
    apply NoDup_nil_2.
Qed.

(** ** Schema selection *)

Section Selection.
Context `{XsdWorkerApi}.
Variable xsdManager : XsdManager.t.

(** With a requested prefix the binding is looked up under the prefix as
    key of the map. *)
Lemma getXsdWorkersForNamespace_requested (namespaces : Js.Map INamespaceInfo)
    (requested : string) :
  requested <> "" ->
  getXsdWorkersForNamespace xsdManager namespaces (Some requested) =
    match Js.get namespaces requested with
    | Some namespaceInfo =>
        match XsdManager.get xsdManager (path namespaceInfo) with
        | Some xsdWorker => [withNamespace xsdWorker (Some requested)]
        | None => []
        end
    | None => []
    end.
Proof.
  intros Hne. unfold getXsdWorkersForNamespace, Js.truthy.
  destruct (String.eqb_spec requested "") as [-> | _]; [contradiction |].
  cbn [negb]. destruct (Js.get namespaces requested) as [info |]; [| reflexivity].
  now destruct (XsdManager.get xsdManager (path info)).
Qed.

Lemma getXsdWorkersForNamespace_none_loaded (namespaces : Js.Map INamespaceInfo) :
  (forall key info, In (key, info) namespaces ->
                    XsdManager.get xsdManager (path info) = None) ->
  getXsdWorkersForNamespace xsdManager namespaces (Some "") = [].
Proof.
  unfold getXsdWorkersForNamespace. cbn [Js.truthy String.eqb negb].
  generalize (@nil XsdWorker).
  induction namespaces as [| [key info] namespaces IH]; intros acc Hnone.
  - reflexivity.
  - cbn [fold_left]. rewrite (Hnone key info) by now left.
    destruct (_ || _); apply IH; intros k i Hin; apply (Hnone k i); now right.
Qed.

Lemma getParentTag_returns (model : ITextModel) (position : Position) :
  exists parentTag, getParentTag model position = Some parentTag.
Proof.
  unfold getParentTag, getUnclosedTags.
  destruct (visitTags_fold (getTagsFromText (getTextUntilPosition model position)) [])
    as [-> _]; [apply NoDup_nil_2 |].
  cbv zeta. destruct (wordAtPositionIsEqualToLastUnclosedTag _ _); [eauto |].
  destruct (match lastOf _ with Some _ => _ | None => _ end); eauto.
Qed.

End Selection.

(** C2: the selection of the source by prefix fails on the bindings of
    the example document.  The map holds a binding whose prefix is [ns]
    and whose path is loaded in the manager, and for the requested prefix
    [ns] [getXsdWorkersForNamespace] returns no source, where the claim
    has it return the one source of that binding: the map is keyed by
    namespace URI and the lookup uses the prefix as key.  With no prefix
    requested the other branch selects that source and binds it to the
    prefix [ns] of the binding. *)
Theorem prefix_lookup_misses_binding :
  Js.get (getXsdNamespaces exampleModel) "http://example/ns"
    = Some {| prefix := Some "ns"; path := "schema/a.xsd" |}
  /\ XsdManager.get exampleManager "schema/a.xsd" = Some ("schema/a.xsd", None)
  /\ getXsdWorkersForNamespace exampleManager (getXsdNamespaces exampleModel) (Some "ns")
     = []
  /\ getXsdWorkersForNamespace exampleManager (getXsdNamespaces exampleModel) (Some "")
     = [("schema/a.xsd", Some "ns")].
Proof. repeat split. Qed.

(** ** The pipeline *)

(** C8, as stated, fails twice.  A closing tag typed inside an element
    whose prefix is declared nowhere gets the close-tag suggestion; and a
    request with no parent tag, at the start of the example document with
    its schema loaded, gets the suggestion of the schema source. *)
Lemma suggestions_without_prefix_or_parent :
  (getCompletionNamespace (oneLineModel "<x:a>text</" None) (endOf "<x:a>text</") = "x"
   /\ getXsdNamespaces (oneLineModel "<x:a>text</" None) = []
   /\ getCompletions (H := stubWorker) exampleManager
        (oneLineModel "<x:a>text</" None) (endOf "<x:a>text</") (typed "/")
      = Some (getClosingElementCompletion (Some "x:a"))
   /\ getCompletions (H := stubWorker) exampleManager
        (oneLineModel "<x:a>text</" None) (endOf "<x:a>text</") (typed "/")
      <> Some [])
  /\ (getParentTag (oneLineModel (String.append "<" exampleDocument) None)
        {| lineNumber := 1; column := 2 |} = Some None
      /\ getCompletions (H := stubWorker) exampleManager
           (oneLineModel (String.append "<" exampleDocument) None)
           {| lineNumber := 1; column := 2 |} (typed "<")
         = Some (doCompletion (XsdWorkerApi := stubWorker) ("schema/a.xsd", Some "ns")
                   CompletionType.element None)
      /\ getCompletions (H := stubWorker) exampleManager
           (oneLineModel (String.append "<" exampleDocument) None)
           {| lineNumber := 1; column := 2 |} (typed "<")
         <> Some []).
Proof. repeat split; discriminate. Qed.

Section Pipeline.
Context `{XsdWorkerApi}.
Variable xsdManager : XsdManager.t.

(** C8, amended: a request classified [none] gets no suggestion; a
    request of a kind other than [closingElement] gets no suggestion
    when its namespace prefix is not a key of the bindings, when the path
    of its binding is not loaded, or when it has no prefix and no binding
    has a loaded path.  A [closingElement] request with a parent tag gets
    the one close-tag suggestion for that tag, whatever the namespaces;
    a request of another kind with no parent tag gets what the selected
    schema sources suggest for no parent. *)
Theorem getCompletions_empty (model : ITextModel) (position : Position)
    (context : CompletionContext) :
  let kind := getCompletionType (getLineContent model (lineNumber position)) context in
  let bindings := getXsdNamespaces model in
  let requested := getCompletionNamespace model position in
  (kind <> CompletionType.closingElement ->
   kind = CompletionType.none
   \/ (requested <> "" /\ Js.get bindings requested = None)
   \/ (requested <> "" /\ exists info, Js.get bindings requested = Some info
                                    /\ XsdManager.get xsdManager (path info) = None)
   \/ (requested = "" /\ forall key info, In (key, info) bindings ->
                                       XsdManager.get xsdManager (path info) = None) ->
   getCompletions xsdManager model position context = Some [])
  /\ (forall tag : string,
        kind = CompletionType.closingElement ->
        getParentTag model position = Some (Some tag) ->
        getCompletions xsdManager model position context
        = Some (getClosingElementCompletion (Some tag)))
  /\ (kind <> CompletionType.none -> kind <> CompletionType.closingElement ->
      getParentTag model position = Some None ->
      getCompletions xsdManager model position context
      = Some (fold_left (fun completions xsdWorker =>
                           completions ++ doCompletion xsdWorker kind None)
                (getXsdWorkersForNamespace xsdManager bindings (Some requested)) [])).
Proof.
  intros kind bindings requested. split; [| split].
  - intros Hclosing Hcase.
    assert (Hnone : kind <> CompletionType.none ->
                    getXsdWorkersForNamespace xsdManager bindings (Some requested) = []).
    { intros Hkind. destruct Hcase as [Hk | [[Hne Hget] | [[Hne (info & Hget & Hload)] | [-> Hall]]]].
      - contradiction.
      - rewrite getXsdWorkersForNamespace_requested by assumption. now rewrite Hget.
      - rewrite getXsdWorkersForNamespace_requested by assumption.
        now rewrite Hget, Hload.
      - now apply getXsdWorkersForNamespace_none_loaded. }
    unfold getCompletions. fold kind. fold bindings. fold requested.
    destruct (getParentTag_returns model position) as [parentTag ->].
    destruct kind; try reflexivity; try contradiction;
      rewrite Hnone by discriminate; reflexivity.
  - intros tag Hkind Hparent. unfold getCompletions. fold kind.
    now rewrite Hkind, Hparent.
  - intros Hnone Hclosing Hparent. unfold getCompletions.
    fold kind. fold bindings. fold requested. rewrite Hparent.
    destruct kind; try reflexivity; contradiction.
Qed.

End Pipeline.

Lemma getCompletions_empty_witness :
  getCompletions (H := stubWorker) exampleManager
    (oneLineModel "<x:a><x:" None) (endOf "<x:a><x:") (typed "<") = Some []
  /\ getCompletions (H := stubWorker) exampleManager
       (oneLineModel "<x:a>text</" None) (endOf "<x:a>text</") (typed "/")
     = Some (getClosingElementCompletion (Some "x:a"))
  /\ getCompletions (H := stubWorker) exampleManager
       (oneLineModel "<" None) (endOf "<") (typed "<") = Some [].
Proof.
  split; [| split].
  - destruct (getCompletions_empty (H := stubWorker) exampleManager
                (oneLineModel "<x:a><x:" None) (endOf "<x:a><x:") (typed "<"))
      as (Hempty & _ & _).
    apply Hempty; [discriminate |].
    right. left. split; [discriminate | reflexivity].
  - destruct (getCompletions_empty (H := stubWorker) exampleManager
                (oneLineModel "<x:a>text</" None) (endOf "<x:a>text</") (typed "/"))
      as (_ & Hclosing & _).
    apply Hclosing; reflexivity.
  - destruct (getCompletions_empty (H := stubWorker) exampleManager
                (oneLineModel "<" None) (endOf "<") (typed "<"))
      as (_ & _ & Hroot).
    apply Hroot; (discriminate || reflexivity).
Defined.

(** ** The suggestion cache *)

Section IndexOf.

Lemma indexOf_range (a : list string) (x : string) :
  (-1 <= Js.indexOf a x < Js.len a)%Z.
Proof.
  unfold Js.len. induction a as [| y a IH]; simpl; [lia |].
  destruct (String.eqb y x); [lia |].
  destruct (Z.ltb_spec (Js.indexOf a x) 0); lia.
Qed.

Lemma indexOf_elem_of (a : list string) (x : string) :
  x ∈ a <-> (0 <= Js.indexOf a x)%Z.
Proof.
  induction a as [| y a IH]; simpl.
  - split; [intros Hin; now apply elem_of_nil in Hin | lia].
  - rewrite elem_of_cons. destruct (String.eqb_spec y x) as [-> | Hne].
    + split; [lia | now left].
    + destruct (Z.ltb_spec (Js.indexOf a x) 0).
      * split; [| lia]. intros [-> | Hin]; [congruence |]. apply IH in Hin. lia.
      * split; [lia |]. intros _. right. apply IH. lia.
Qed.

Lemma indexOf_not_elem_of (a : list string) (x : string) :
  x ∉ a <-> Js.indexOf a x = (-1)%Z.
Proof.
  rewrite indexOf_elem_of. pose proof (indexOf_range a x). lia.
Qed.

(** The index of a name after [push]. *)
Lemma indexOf_push (a : list string) (x y : string) :
  Js.indexOf (a ++ [y]) x =
    if decide (x ∈ a) then Js.indexOf a x
    else if decide (x = y) then Js.len a else (-1)%Z.
Proof.
  unfold Js.len. induction a as [| z a IH].
  - simpl. destruct (decide (x ∈ [])) as [Hin | _]; [now apply elem_of_nil in Hin |].
    destruct (String.eqb_spec y x) as [-> | Hne].
    + now rewrite decide_True.
    + now rewrite decide_False by congruence.
  - cbn [app Js.indexOf]. destruct (String.eqb_spec z x) as [-> | Hne].
    + rewrite decide_True by now left. reflexivity.
    + rewrite IH. destruct (decide (x ∈ a)) as [Hin | Hnotin].
      * rewrite decide_True by now right. reflexivity.
      * rewrite (decide_False (P := x ∈ z :: a)).
        2:{ intros Hin. apply elem_of_cons in Hin as [-> | Hin]; congruence. }
        destruct (decide (x = y)); simpl length.
        -- destruct (Z.ltb_spec (Z.of_nat (length a)) 0); lia.
        -- reflexivity.
Qed.

Lemma indexOf_nth (a : list string) (x : string) :
  x ∈ a -> nth_error a (Z.to_nat (Js.indexOf a x)) = Some x.
Proof.
  induction a as [| y a IH]; intros Hin; [now apply elem_of_nil in Hin |].
  simpl. destruct (String.eqb_spec y x) as [-> | Hne]; [reflexivity |].
  apply elem_of_cons in Hin as [-> | Hin]; [congruence |].
  pose proof (proj1 (indexOf_elem_of a x) Hin).
  destruct (Z.ltb_spec (Js.indexOf a x) 0); [lia |].
  replace (Z.to_nat (Js.indexOf a x + 1)) with (S (Z.to_nat (Js.indexOf a x))) by lia.
  simpl. now apply IH.
Qed.

(** Two names of the array have different indices. *)
Lemma indexOf_inj (a : list string) (x y : string) :
  x ∈ a -> y ∈ a -> Js.indexOf a x = Js.indexOf a y -> x = y.
Proof.
  intros Hx Hy Heq. apply indexOf_nth in Hx, Hy. rewrite Heq in Hx. congruence.
Qed.

End IndexOf.

Section CacheFacts.
Context {DocumentNode : Type}.
Variable xsd : XsdParser.t DocumentNode.

Local Abbreviation state := (@Cache.state DocumentNode).

Lemma serve_hit (c : Cache.request) (s : state) (v : list DocumentNode) :
  Cache.stored s (Cache.keyOf c) = Some v -> Cache.serve xsd c s = (Some v, s).
Proof.
  destruct c as [[p |] | e]; unfold Cache.stored; cbn [Cache.keyOf fst snd]; intros Hs;
    cbn [Cache.serve Cache.elements];
    unfold Cache.subElements, Cache.rootElements, Cache.attributes, Cache.orElse,
      Cache.getElementCollection, Cache.getAttributeCollection, Cache.getIndexForNode,
      Cache.bind, Cache.gets, Cache.ret;
    now rewrite Hs.
Qed.

Lemma serve_miss (c : Cache.request) (s : state) :
  Cache.stored s (Cache.keyOf c) = None ->
  Cache.serve xsd c s =
    (Some (XsdParser.answer xsd (Cache.queryOf c)), afterMiss xsd s c).
Proof.
  destruct c as [[p |] | e]; unfold Cache.stored; cbn [Cache.keyOf fst snd]; intros Hs;
    cbn [Cache.serve Cache.elements];
    unfold Cache.subElements, Cache.rootElements, Cache.attributes, Cache.orElse,
      Cache.getSubElements, Cache.getRootElements, Cache.getAttributes,
      Cache.setElementCollection, Cache.setAttributeCollection, Cache.query,
      Cache.pushNode, Cache.modify,
      Cache.getElementCollection, Cache.getAttributeCollection, Cache.getIndexForNode,
      Cache.bind, Cache.gets, Cache.ret;
    rewrite Hs; cbn [Cache.nodeMap Cache.elementCollections Cache.attributeCollections];
    now rewrite lookup_insert_eq.
Qed.

Lemma wellIndexed_create : wellIndexed (DocumentNode := DocumentNode) Cache.create.
Proof.
  split; intros i [v Hv]; cbn in Hv; now rewrite lookup_empty in Hv.
Qed.

Lemma len_push (a : list string) (x : string) : Js.len (a ++ [x]) = (Js.len a + 1)%Z.
Proof. unfold Js.len. rewrite length_app. simpl. lia. Qed.

Lemma indexOf_pushed (a : list string) (x : string) :
  (0 <= Js.indexOf (a ++ [x]) x < Js.len (a ++ [x]))%Z.
Proof.
  pose proof (indexOf_range (a ++ [x]) x).
  assert (x ∈ a ++ [x]) as Hin by (apply elem_of_app; right; now left).
  apply indexOf_elem_of in Hin. lia.
Qed.

Lemma wellIndexed_afterMiss (s : state) (c : Cache.request) :
  wellIndexed s -> wellIndexed (afterMiss xsd s c).
Proof.
  intros [Hel Hat]. unfold afterMiss.
  pose proof (indexOf_pushed (Cache.nodeMap s) (snd (Cache.keyOf c))) as Hi.
  split; cbn [Cache.nodeMap Cache.elementCollections Cache.attributeCollections];
    intros i; destruct (fst (Cache.keyOf c));
    try (rewrite lookup_insert; case_decide; [subst i; intros _; exact Hi |]);
    intros Hs; rewrite len_push; (apply Hel in Hs || apply Hat in Hs); lia.
Qed.

(** A call leaves every other key as it is. *)
Lemma stored_afterMiss_other (s : state) (c : Cache.request) (k : bool * string) :
  wellIndexed s -> k <> Cache.keyOf c ->
  Cache.stored (afterMiss xsd s c) k = Cache.stored s k.
Proof.
  intros [Hel Hat] Hne. destruct k as [b x]. destruct (Cache.keyOf c) as [b0 x0] eqn:Hk.
  unfold Cache.stored, afterMiss. rewrite Hk.
  cbn [fst snd Cache.nodeMap Cache.elementCollections Cache.attributeCollections].
  pose proof (indexOf_pushed (Cache.nodeMap s) x0) as Hi0.
  pose proof (indexOf_range (Cache.nodeMap s) x) as Hr.
  assert (Hout_el : forall i, ~ (0 <= i < Js.len (Cache.nodeMap s))%Z ->
                              Cache.elementCollections s !! i = None).
  { intros i Hi. destruct (Cache.elementCollections s !! i) eqn:E; [| reflexivity].
    exfalso. apply Hi, Hel. eauto. }
  assert (Hout_at : forall i, ~ (0 <= i < Js.len (Cache.nodeMap s))%Z ->
                              Cache.attributeCollections s !! i = None).
  { intros i Hi. destruct (Cache.attributeCollections s !! i) eqn:E; [| reflexivity].
    exfalso. apply Hi, Hat. eauto. }
  assert (Hidx : x <> x0 \/ b <> b0).
  { destruct (decide (x = x0)) as [-> | ?]; [right | now left]. congruence. }
  rewrite (indexOf_push _ x x0).
  destruct (decide (x ∈ Cache.nodeMap s)) as [Hin | Hnotin].
  - (* the index of [x] is unchanged; it differs from that of [x0] unless
       the names are equal *)
    assert (Hdiff : x <> x0 -> Js.indexOf (Cache.nodeMap s) x
                               <> Js.indexOf (Cache.nodeMap s ++ [x0]) x0).
    { intros Hx Heq. apply Hx.
      apply (indexOf_inj (Cache.nodeMap s ++ [x0])).
      - apply elem_of_app. now left.
      - apply elem_of_app. right. now left.
      - rewrite (indexOf_push _ x x0), decide_True by assumption. exact Heq. }
    destruct b, b0; try reflexivity;
      (rewrite lookup_insert_ne; [reflexivity |]);
      intros Heq; destruct Hidx as [Hx | Hb]; try congruence;
      now apply (Hdiff Hx).
  - apply indexOf_not_elem_of in Hnotin as Hm1.
    destruct (decide (x = x0)) as [-> | Hx].
    + (* same name, other collection: the new index has no entry *)
      destruct Hidx as [? | Hb]; [congruence |].
      rewrite Hm1. destruct b, b0; try congruence.
      * rewrite Hout_el by lia. rewrite Hout_el by lia. reflexivity.
      * rewrite Hout_at by lia. rewrite Hout_at by lia. reflexivity.
    + rewrite Hm1. destruct b, b0; try reflexivity;
        (rewrite lookup_insert_ne; [reflexivity | lia]).
Qed.

Lemma stored_afterMiss_same (s : state) (c : Cache.request) :
  Cache.stored (afterMiss xsd s c) (Cache.keyOf c)
  = Some (XsdParser.answer xsd (Cache.queryOf c)).
Proof.
  unfold Cache.stored, afterMiss.
  cbn [Cache.nodeMap Cache.elementCollections Cache.attributeCollections].
  destruct (fst (Cache.keyOf c)); now rewrite lookup_insert_eq.
Qed.


(** One call: it returns the entry of its key, which is stored from then
    on; entries already stored stay; the calls of the parser grow by the
    query of the call when the key had no entry, and not at all
    otherwise. *)
Lemma serve_step (c : Cache.request) (s : state) :
  wellIndexed s ->
  exists v,
    Cache.serve xsd c s = (Some v, snd (Cache.serve xsd c s))
    /\ Cache.stored (snd (Cache.serve xsd c s)) (Cache.keyOf c) = Some v
    /\ wellIndexed (snd (Cache.serve xsd c s))
    /\ (forall k, k <> Cache.keyOf c ->
                  Cache.stored (snd (Cache.serve xsd c s)) k = Cache.stored s k)
    /\ (forall k w, Cache.stored s k = Some w ->
                    Cache.stored (snd (Cache.serve xsd c s)) k = Some w).
Proof.
  intros Hwi. destruct (Cache.stored s (Cache.keyOf c)) as [v |] eqn:Hs.
  - exists v. rewrite (serve_hit c s v Hs). cbn [snd].
    split; [reflexivity |]. split; [assumption |]. split; [assumption |].
    split; [reflexivity | auto].
  - exists (XsdParser.answer xsd (Cache.queryOf c)). rewrite (serve_miss c s Hs).
    cbn [snd]. split; [reflexivity |]. split; [apply stored_afterMiss_same |].
    split; [now apply wellIndexed_afterMiss |].
    split; [intros k Hk; now apply stored_afterMiss_other |].
    intros k w Hk. rewrite stored_afterMiss_other; [assumption | assumption |].
    intros ->. congruence.
Qed.

Lemma serveAll_cons (c : Cache.request) (cs : list Cache.request) (s : state) :
  Cache.serveAll xsd (c :: cs) s = Cache.serveAll xsd cs (snd (Cache.serve xsd c s)).
Proof. reflexivity. Qed.

Lemma serveAll_wellIndexed (cs : list Cache.request) (s : state) :
  wellIndexed s -> wellIndexed (Cache.serveAll xsd cs s).
Proof.
  revert s. induction cs as [| c cs IH]; intros s Hwi; [assumption |].
  rewrite serveAll_cons. apply IH.
  now destruct (serve_step c s Hwi) as (v & _ & _ & Hwi' & _).
Qed.

(** An entry, once stored, is there after any further calls. *)
Lemma serveAll_stored (cs : list Cache.request) (s : state) (k : bool * string)
    (v : list DocumentNode) :
  wellIndexed s -> Cache.stored s k = Some v ->
  Cache.stored (Cache.serveAll xsd cs s) k = Some v.
Proof.
  revert s. induction cs as [| c cs IH]; intros s Hwi Hs; [assumption |].
  rewrite serveAll_cons.
  destruct (serve_step c s Hwi) as (w & _ & _ & Hwi' & _ & Hkeep).
  apply IH; [assumption | now apply Hkeep].
Qed.

(** A key has no entry before the first call for it. *)
Lemma serveAll_not_stored (cs : list Cache.request) (s : state) (k : bool * string) :
  wellIndexed s -> Cache.stored s k = None -> k ∉ map Cache.keyOf cs ->
  Cache.stored (Cache.serveAll xsd cs s) k = None.
Proof.
  revert s. induction cs as [| c cs IH]; intros s Hwi Hs Hnotin; [assumption |].
  rewrite serveAll_cons. cbn [map] in Hnotin. apply not_elem_of_cons in Hnotin as [Hne Hnotin].
  destruct (serve_step c s Hwi) as (w & _ & _ & Hwi' & Hother & _).
  apply IH; [assumption | | assumption]. now rewrite Hother.
Qed.

(** An entry was stored by a call for its key, as the answer to the query
    of that call. *)
Lemma serveAll_stored_origin (cs : list Cache.request) (s : state) (k : bool * string)
    (v : list DocumentNode) :
  wellIndexed s -> Cache.stored (Cache.serveAll xsd cs s) k = Some v ->
  Cache.stored s k = Some v
  \/ exists c, c ∈ cs /\ Cache.keyOf c = k /\ v = XsdParser.answer xsd (Cache.queryOf c).
Proof.
  revert s. induction cs as [| c cs IH]; intros s Hwi Hs; [now left |].
  rewrite serveAll_cons in Hs.
  destruct (serve_step c s Hwi) as (w & Hserve & Hstored & Hwi' & Hother & _).
  apply IH in Hs as [Hs | (c' & Hin & Hk & Hv)]; [| | assumption].
  - destruct (decide (k = Cache.keyOf c)) as [-> | Hne].
    + destruct (Cache.stored s (Cache.keyOf c)) as [u |] eqn:Hold.
      * left. rewrite (serve_hit c s u Hold) in Hs. cbn [snd] in Hs. congruence.
      * right. exists c. split; [now left | split; [reflexivity |]].
        rewrite (serve_miss c s Hold) in Hs. cbn [snd] in Hs.
        rewrite stored_afterMiss_same in Hs. congruence.
    + left. now rewrite Hother in Hs.
  - right. exists c'. split; [now right | now split].
Qed.

(** Every call of the parser answers a call whose key had no entry. *)
Lemma serveAll_calls_origin (cs : list Cache.request) (s : state) (q : XsdParser.call) :
  wellIndexed s -> q ∈ Cache.calls (Cache.serveAll xsd cs s) ->
  q ∈ Cache.calls s
  \/ exists c, c ∈ cs /\ Cache.queryOf c = q /\ Cache.stored s (Cache.keyOf c) = None.
Proof.
  revert s. induction cs as [| c cs IH]; intros s Hwi Hq; [now left |].
  rewrite serveAll_cons in Hq.
  destruct (serve_step c s Hwi) as (w & _ & _ & Hwi' & _ & Hkeep).
  apply IH in Hq as [Hq | (c' & Hin & Hq' & Hnone)]; [| | assumption].
  - destruct (Cache.stored s (Cache.keyOf c)) as [u |] eqn:Hold.
    + left. now rewrite (serve_hit c s u Hold) in Hq.
    + rewrite (serve_miss c s Hold) in Hq. cbn [snd afterMiss Cache.calls] in Hq.
      apply elem_of_app in Hq as [Hq | Hq]; [now left |].
      apply list_elem_of_singleton in Hq. subst q.
      right. exists c. split; [now left | now split].
  - right. exists c'. split; [now right | split; [assumption |]].
    destruct (Cache.stored s (Cache.keyOf c')) as [u |] eqn:Hold; [| reflexivity].
    apply Hkeep in Hold. congruence.
Qed.

End CacheFacts.

Section CacheClaims.
Context {DocumentNode : Type}.
Variable xsd : XsdParser.t DocumentNode.

Lemma stored_create (k : bool * string) :
  Cache.stored (DocumentNode := DocumentNode) Cache.create k = None.
Proof. unfold Cache.stored. cbn. destruct (fst k); apply lookup_empty. Qed.

(** C6: on one instance, whatever calls came earlier, the first call for
    a key makes exactly one query to the parser (the one of the call),
    returns its answer and stores it under the key; and after any later
    calls, the same call returns the same result and leaves the instance,
    the recorded queries included, as it is.  In particular two calls of
    [elements] with no parent on a new instance make the one query
    [getRootElements] and return its answer both times. *)
Theorem cache_memoization (earlier later : list Cache.request) (c : Cache.request) :
  let s0 := Cache.serveAll xsd earlier Cache.create in
  let r1 := fst (Cache.serve xsd c s0) in
  let s1 := snd (Cache.serve xsd c s0) in
  let s2 := Cache.serveAll xsd later s1 in
  (Cache.keyOf c ∉ map Cache.keyOf earlier ->
   r1 = Some (XsdParser.answer xsd (Cache.queryOf c))
   /\ Cache.calls s1 = Cache.calls s0 ++ [Cache.queryOf c]
   /\ Cache.stored s1 (Cache.keyOf c) = r1)
  /\ Cache.serve xsd c s2 = (r1, s2)
  /\ (let first := Cache.serve xsd (Cache.Elements None) Cache.create in
      let second := Cache.serve xsd (Cache.Elements None) (snd first) in
      fst first = Some (XsdParser.getRootElements xsd)
      /\ fst second = fst first
      /\ Cache.calls (snd second) = [XsdParser.RootElements]).
Proof.
  intros s0 r1 s1 s2.
  assert (Hwi0 : wellIndexed s0) by apply serveAll_wellIndexed, wellIndexed_create.
  split; [| split].
  - intros Hfirst.
    assert (Hnone : Cache.stored s0 (Cache.keyOf c) = None).
    { apply serveAll_not_stored;
        [apply wellIndexed_create | apply stored_create | assumption]. }
    subst r1 s1. rewrite (serve_miss xsd c s0 Hnone). cbn [fst snd].
    split; [reflexivity |]. split; [reflexivity | apply stored_afterMiss_same].
  - destruct (serve_step xsd c s0 Hwi0) as (v & Hserve & Hstored & Hwi1 & _).
    assert (Hr1 : r1 = Some v) by (subst r1; now rewrite Hserve).
    rewrite Hr1. apply serve_hit.
    apply serveAll_stored; assumption.
  - cbv zeta.
    rewrite (serve_miss xsd (Cache.Elements None) Cache.create (stored_create _)).
    cbn [fst snd].
    rewrite (serve_hit xsd (Cache.Elements None) _ _
               (stored_afterMiss_same xsd Cache.create (Cache.Elements None))).
    repeat split.
Qed.

(** C10: after a call of [elements] with no parent, and whatever calls
    came before and after it, [elements] of the name [rootElements]
    returns what that call returned and makes no query: the instance, with
    its recorded queries, stays as it is.  When no call of [elements] of
    the name [rootElements] came earlier, what is returned is the answer
    of [getRootElements], and [getSubElements] of [rootElements] is not
    among the queries ever made. *)
Theorem rootElements_key_shared (earlier later : list Cache.request) :
  let s0 := Cache.serveAll xsd earlier Cache.create in
  let r1 := fst (Cache.serve xsd (Cache.Elements None) s0) in
  let s1 := snd (Cache.serve xsd (Cache.Elements None) s0) in
  let s2 := Cache.serveAll xsd later s1 in
  Cache.serve xsd (Cache.Elements (Some "rootElements")) s2 = (r1, s2)
  /\ (Cache.Elements (Some "rootElements") ∉ earlier ->
      r1 = Some (XsdParser.getRootElements xsd)
      /\ XsdParser.SubElements "rootElements" ∉ Cache.calls s2).
Proof.
  intros s0 r1 s1 s2.
  assert (Hwi0 : wellIndexed s0) by apply serveAll_wellIndexed, wellIndexed_create.
  destruct (serve_step xsd (Cache.Elements None) s0 Hwi0)
    as (v & Hserve & Hstored & Hwi1 & _).
  assert (Hr1 : r1 = Some v) by (subst r1; now rewrite Hserve).
  fold s1 in Hstored, Hwi1.
  split.
  - rewrite Hr1. apply serve_hit. now apply serveAll_stored.
  - intros Hnever.
    assert (Hkey : forall c, Cache.keyOf c = (true, "rootElements") ->
                             c = Cache.Elements None
                             \/ c = Cache.Elements (Some "rootElements")).
    { intros [[p |] | e] Hk; cbn in Hk; [| now left | discriminate].
      injection Hk as ->. now right. }
    split.
    + rewrite Hr1. f_equal.
      apply (serveAll_stored_origin xsd [Cache.Elements None] s0) in Hstored
        as [Hold | (c & Hin & Hk & ->)]; [| | assumption].
      * apply serveAll_stored_origin in Hold as [Hold | (c & Hin & Hk & ->)];
          [| | apply wellIndexed_create].
        -- now rewrite stored_create in Hold.
        -- destruct (Hkey c Hk) as [-> | ->]; [reflexivity | contradiction].
      * apply list_elem_of_singleton in Hin. now subst c.
    + intros Hq. apply serveAll_calls_origin in Hq as [Hq | (c & Hin & Hc & Hnone)];
        [| | assumption].
      * apply (serveAll_calls_origin xsd [Cache.Elements None] s0) in Hq
          as [Hq | (c & Hin & Hc & _)]; [| | assumption].
        -- apply serveAll_calls_origin in Hq as [Hq | (c & Hin & Hc & _)];
             [| | apply wellIndexed_create].
           ++ now apply elem_of_nil in Hq.
           ++ destruct c as [[p |] | e]; try discriminate.
              injection Hc as ->. contradiction.
        -- apply list_elem_of_singleton in Hin. now subst c.
      * destruct c as [[p |] | e]; try discriminate. injection Hc as ->.
        cbn [Cache.keyOf] in Hnone, Hstored. congruence.
Qed.

End CacheClaims.

Lemma cache_memoization_witness :
  let s0 := Cache.serveAll stubParser [Cache.Attributes "book"] Cache.create in
  let s1 := snd (Cache.serve stubParser (Cache.Elements (Some "book")) s0) in
  let s2 := Cache.serveAll stubParser [Cache.Elements None; Cache.Attributes "book"] s1 in
  fst (Cache.serve stubParser (Cache.Elements (Some "book")) s0) = Some ["book-child"]
  /\ Cache.calls s1 = Cache.calls s0 ++ [XsdParser.SubElements "book"]
  /\ Cache.serve stubParser (Cache.Elements (Some "book")) s2 = (Some ["book-child"], s2).
Proof.
  intros s0 s1 s2.
  destruct (cache_memoization stubParser [Cache.Attributes "book"]
              [Cache.Elements None; Cache.Attributes "book"]
              (Cache.Elements (Some "book"))) as (Hfirst & Hagain & _).
  assert (Hkey : Cache.keyOf (Cache.Elements (Some "book"))
                 ∉ map Cache.keyOf [Cache.Attributes "book"]).
  { cbn. intros Hin. apply list_elem_of_singleton in Hin. discriminate. }
  destruct (Hfirst Hkey) as (Hr & Hcalls & _).
  split; [exact Hr | split; [exact Hcalls |]].
  fold s0 s1 s2 in Hagain. rewrite Hagain. now f_equal.
Defined.

Lemma rootElements_key_shared_witness :
  let s0 := Cache.serveAll stubParser [Cache.Elements (Some "book")] Cache.create in
  let s1 := snd (Cache.serve stubParser (Cache.Elements None) s0) in
  let s2 := Cache.serveAll stubParser [Cache.Attributes "rootElements"] s1 in
  Cache.serve stubParser (Cache.Elements (Some "rootElements")) s2 = (Some ["library"], s2)
  /\ XsdParser.SubElements "rootElements" ∉ Cache.calls s2.
Proof.
  intros s0 s1 s2.
  destruct (rootElements_key_shared stubParser [Cache.Elements (Some "book")]
              [Cache.Attributes "rootElements"]) as (Hshared & Hroot).
  assert (Hnever : Cache.Elements (Some "rootElements")
                   ∉ [Cache.Elements (Some "book")]).
  { intros Hin. apply list_elem_of_singleton in Hin. discriminate. }
  destruct (Hroot Hnever) as (Hr & Hcalls).
  split; [| exact Hcalls].
  fold s0 s1 s2 in Hshared. rewrite Hshared. now f_equal.
Defined.

(** * Further properties *)

(** ** Tokens of a text *)

Section Tokens.

(** Every match of a global scan is the text that one attempt consumed. *)
Lemma scan_Forall (r : regex) (P : string -> Prop) :
  (forall b a z', match_at r (b, a) = Some z' ->
                  P (string_of_list_ascii (firstn (consumed (b, a) z') a))) ->
  forall after before skip, Forall P (scan r before after skip).
Proof.
  intros Hm. induction after as [| c after IH]; intros before skip.
  - destruct skip; cbn [scan]; [| constructor].
    destruct (match_at r (before, [])) as [z' |] eqn:Hz; [| constructor].
    constructor; [now apply (Hm _ _ _ Hz) | constructor].
  - destruct skip; cbn [scan]; [| apply IH].
    destruct (match_at r (before, c :: after)) as [z' |] eqn:Hz; [| apply IH].
    constructor; [now apply (Hm _ _ _ Hz) | apply IH].
Qed.

(** A greedy run over a class, followed by a rest of the match that
    stays where it is, ends after code units of the class. *)
Lemma star_loop_class_sound (p : ascii -> bool) (k : cursor -> option cursor) :
  (forall z x, k z = Some x -> x = z) ->
  forall n b a z',
    star_loop (fun z0 k0 => one p true z0 k0) k n (b, a) = Some z' ->
    exists v, a = v ++ snd z' /\ fst z' = rev v ++ b /\ Forall (fun c => p c = true) v.
Proof.
  intros Hk. induction n as [| n IH]; intros b a z' Hs; cbn [star_loop] in Hs.
  - apply Hk in Hs. subst z'. now exists [].
  - rewrite one_fwd in Hs. destruct a as [| c a].
    + apply Hk in Hs. subst z'. now exists [].
    + destruct (p c) eqn:Hc.
      * rewrite same_pos_cons in Hs.
        destruct (star_loop _ k n (c :: b, a)) as [x |] eqn:Hrec.
        -- injection Hs as ->. apply IH in Hrec as (v & Ha & Hb & Hall).
           exists (c :: v). split; [simpl; now rewrite <- Ha |].
           split; [simpl; now rewrite <- app_assoc | now constructor].
        -- apply Hk in Hs. subst z'. now exists [].
      * apply Hk in Hs. subst z'. now exists [].
Qed.

Lemma plus_class_sound (negated : bool) (items : list cls_item)
    (k : cursor -> option cursor) (b a : list ascii) (z' : cursor) :
  (forall z x, k z = Some x -> x = z) ->
  rmatch (RPlus (RClass negated items)) cursor true (b, a) k = Some z' ->
  exists v, v <> [] /\ a = v ++ snd z' /\ fst z' = rev v ++ b
            /\ Forall (fun c => in_class negated items c = true) v.
Proof.
  intros Hk. unfold RPlus. rewrite rmatch_seq, rmatch_class, one_fwd.
  destruct a as [| c a]; [discriminate |].
  destruct (in_class negated items c) eqn:Hc; [| discriminate].
  rewrite rmatch_star_class. intros Hs.
  apply (star_loop_class_sound _ k Hk) in Hs as (v & Ha & Hb & Hall).
  exists (c :: v). split; [discriminate |].
  split; [simpl; now rewrite <- Ha |].
  split; [simpl; now rewrite <- app_assoc | now constructor].
Qed.

Lemma consumed_prefix (b v rest : list ascii) (z' : cursor) :
  snd z' = rest ->
  firstn (consumed (b, v ++ rest) z') (v ++ rest) = v.
Proof.
  intros Hrest. unfold consumed. cbn [snd]. rewrite Hrest, length_app.
  replace (length v + length rest - length rest) with (length v) by lia.
  apply take_app_length.
Qed.

(** What one attempt of [regexForTags] consumes. *)
Lemma match_at_tags_consumed (b a : list ascii) (z' : cursor) :
  match_at regexForTags (b, a) = Some z' ->
  exists v, v <> [] /\ firstn (consumed (b, a) z') a = v
            /\ Forall (fun c => in_class true
                 [CChar "?"; CSpace; CChar "|"; CChar "/"; CChar ">"] c = true) v.
Proof.
  unfold match_at, regexForTags. rewrite rmatch_seq, rmatch_look.
  destruct (rmatch _ unit _ _ _); [| discriminate]. cbn [negb].
  (* the rest of the match after the run is a lookahead *)
  rewrite rmatch_seq. intros Hs.
  apply plus_class_sound in Hs as (v & Hne & Ha & Hb & Hall).
  - exists v. split; [assumption |]. split; [| assumption].
    rewrite Ha. now apply consumed_prefix.
  - intros z x. rewrite rmatch_look.
    destruct (rmatch _ unit _ _ _); [discriminate | congruence].
Qed.

(** What one attempt of [regexForAttributes] consumes. *)
Lemma match_at_attributes_consumed (b a : list ascii) (z' : cursor) :
  match_at regexForAttributes (b, a) = Some z' ->
  exists v, v <> [] /\ firstn (consumed (b, a) z') a = v
            /\ Forall (fun c => is_alnum c = true) v.
Proof.
  unfold match_at, regexForAttributes. rewrite rmatch_seq, rmatch_look.
  destruct (rmatch _ unit _ _ _); [| discriminate]. cbn [negb]. intros Hs.
  apply plus_class_sound in Hs as (v & Hne & Ha & Hb & Hall).
  - exists v. split; [assumption |]. split.
    + rewrite Ha. now apply consumed_prefix.
    + eapply Forall_impl; [exact Hall |]. intros c Hc. now rewrite <- in_class_alnum.
  - intros z x. congruence.
Qed.

End Tokens.

Lemma tags_tokens (text : string) :
  Forall (fun tag =>
            tag <> ""
            /\ forall c, c ∈ list_ascii_of_string tag ->
                         c <> "?"%char /\ c <> "|"%char /\ c <> "/"%char
                         /\ c <> ">"%char /\ is_space c = false)
         (getTagsFromText text).
Proof.
  unfold getTagsFromText, getMatchesForRegex, match_all.
  apply scan_Forall. intros b a z' Hm.
  apply match_at_tags_consumed in Hm as (v & Hne & -> & Hall). split.
  - destruct v; [contradiction | discriminate].
  - intros c Hc. rewrite list_ascii_of_string_of_list_ascii in Hc.
    rewrite Forall_forall in Hall. specialize (Hall c Hc).
    unfold in_class in Hall. cbn [existsb in_item xorb] in Hall.
    apply negb_true_iff in Hall. rewrite !orb_false_iff in Hall.
    destruct Hall as (H1 & H2 & H3 & H4 & H5 & _).
    repeat split; try (intros ->; discriminate); assumption.
Qed.

(** X1. Every tag-name token that [getTagsFromText] finds is a non-empty
    string with no question mark, no vertical bar, no slash, no closing
    angle bracket and no whitespace in it. *)
Theorem getTagsFromText_tokens (text : string) :
  Forall (fun tag =>
            tag <> ""
            /\ forall c, c ∈ list_ascii_of_string tag ->
                         c <> "?"%char /\ c <> "|"%char /\ c <> "/"%char
                         /\ c <> ">"%char /\ is_space c = false)
         (getTagsFromText text).
Proof. apply tags_tokens. Qed.

(** X2. Every token that [getAttributesFromText] finds is a non-empty run
    of letters and digits. *)
Theorem getAttributesFromText_tokens (text : string) :
  Forall (fun name =>
            name <> ""
            /\ forall c, c ∈ list_ascii_of_string name -> is_alnum c = true)
         (getAttributesFromText text).
Proof.
  unfold getAttributesFromText, getMatchesForRegex, match_all.
  apply scan_Forall. intros b a z' Hm.
  apply match_at_attributes_consumed in Hm as (v & Hne & -> & Hall). split.
  - destruct v; [contradiction | discriminate].
  - intros c Hc. rewrite list_ascii_of_string_of_list_ascii in Hc.
    rewrite Forall_forall in Hall. now apply Hall.
Qed.

(** ** Classification *)

(** X3. [isInsideAttributeValue] holds of a text exactly when the text
    ends with an equals sign, a double quote and one or more code units
    none of which is a double quote. *)
Theorem isInsideAttributeValue_characterised (text : string) :
  isInsideAttributeValue text = true <->
  exists before value : string,
    text = before +:+ dq "='" +:+ value
    /\ value <> "" /\ dquote ∉ list_ascii_of_string value.
Proof. apply isInsideAttributeValue_iff. Qed.

Lemma getCompletionTypeByTriggerCharacter_closing (triggerCharacter : option string) :
  getCompletionTypeByTriggerCharacter triggerCharacter = CompletionType.closingElement
  <-> triggerCharacter = Some "/".
Proof.
  split; [| now intros ->].
  destruct triggerCharacter as [[| c [| d s]] |]; try discriminate.
  - rewrite getCompletionTypeByTriggerCharacter_single.
    destruct (Ascii.eqb_spec c "<"); [discriminate |].
    destruct (Ascii.eqb_spec c " "); [discriminate |].
    destruct (Ascii.eqb_spec c "/") as [-> |]; [reflexivity | discriminate].
  - destruct c as [[] [] [] [] [] [] [] []]; discriminate.
Qed.

(** X4. [getCompletionType] answers [closingElement] exactly when the
    line is not inside an open attribute value and the completion was
    triggered by typing a slash; an invoked completion never closes a
    tag. *)
Theorem getCompletionType_closingElement (line : string) (context : CompletionContext) :
  getCompletionType line context = CompletionType.closingElement <->
  isInsideAttributeValue line = false
  /\ triggerKind context = CompletionTriggerKind.TriggerCharacter
  /\ triggerCharacter context = Some "/".
Proof.
  unfold getCompletionType, getCompletionTypeForIncompleteCompletion.
  destruct (isInsideAttributeValue line).
  { split; [discriminate | intros [? _]; discriminate]. }
  destruct (triggerKind context).
  - split; [| intros (_ & ? & _); discriminate].
    destruct (textContainsAttributes line); [discriminate |].
    destruct (textContainsTags line); discriminate.
  - rewrite getCompletionTypeByTriggerCharacter_closing. tauto.
  - split; [| intros (_ & ? & _); discriminate].
    destruct (textContainsAttributes line); [discriminate |].
    destruct (textContainsTags line); discriminate.
Qed.

(** ** The tag stack, further *)

Section TagStackMore.

Lemma visitTags_app (l1 l2 stack : list string) :
  visitTags (l1 ++ l2) stack =
    match visitTags l1 stack with
    | Some stack' => visitTags l2 stack'
    | None => None
    end.
Proof.
  revert stack. induction l1 as [| t l1 IH]; intros stack; simpl; [reflexivity |].
  destruct (visitTag stack t); [apply IH | reflexivity].
Qed.

Lemma stackStep_sublist (stack seen : list string) (tag : string) :
  stack `sublist_of` seen -> stackStep stack tag `sublist_of` seen ++ [tag].
Proof.
  intros Hsub. unfold stackStep. destruct (Js.includes stack tag).
  - apply sublist_inserts_r. etransitivity; [apply sublist_take | exact Hsub].
  - now apply sublist_app.
Qed.

Lemma fold_stackStep_sublist (tags stack seen : list string) :
  stack `sublist_of` seen ->
  fold_left stackStep tags stack `sublist_of` seen ++ tags.
Proof.
  revert stack seen. induction tags as [| tag tags IH]; intros stack seen Hsub; simpl.
  - now rewrite app_nil_r.
  - replace (seen ++ tag :: tags) with ((seen ++ [tag]) ++ tags)
      by now rewrite <- app_assoc.
    apply IH. now apply stackStep_sublist.
Qed.

(** Tags that are not in the stack are pushed one after the other. *)
Lemma visitTags_push (tags stack : list string) :
  NoDup (stack ++ tags) -> visitTags tags stack = Some (stack ++ tags).
Proof.
  revert stack. induction tags as [| tag tags IH]; intros stack Hnd; simpl.
  - now rewrite app_nil_r.
  - assert (Hnot : Js.includes stack tag = false).
    { destruct (Js.includes stack tag) eqn:Hinc; [| reflexivity].
      apply includes_elem_of in Hinc. apply NoDup_app in Hnd as (_ & Hdisj & _).
      exfalso. apply (Hdisj tag Hinc). now left. }
    unfold visitTag. rewrite Hnot.
    replace (stack ++ tag :: tags) with ((stack ++ [tag]) ++ tags)
      by now rewrite <- app_assoc.
    apply IH. now rewrite <- app_assoc.
Qed.

(** Closing them in reverse order pops them one after the other. *)
Lemma visitTags_pop (tags stack : list string) :
  NoDup (stack ++ tags) -> visitTags (rev tags) (stack ++ tags) = Some stack.
Proof.
  induction tags as [| tag tags IH] using rev_ind; intros Hnd.
  - simpl. now rewrite app_nil_r.
  - rewrite rev_unit. cbn [visitTags].
    rewrite app_assoc in Hnd |- *.
    destruct (visitTag_stackStep ((stack ++ tags) ++ [tag]) tag Hnd) as [-> _].
    assert (Hstep : stackStep ((stack ++ tags) ++ [tag]) tag = stack ++ tags).
    { unfold stackStep.
      assert (Hin : Js.includes ((stack ++ tags) ++ [tag]) tag = true).
      { apply includes_elem_of, elem_of_app. right. now left. }
      rewrite Hin. rewrite indexOf_first.
      - rewrite Nat2Z.id. apply take_app_length.
      - apply NoDup_app in Hnd as (_ & Hdisj & _). intros Hin'.
        apply (Hdisj tag Hin'). now left. }
    rewrite Hstep. apply IH. now apply NoDup_app in Hnd as (Hnd & _).
Qed.

End TagStackMore.

(** X5. The stack that [getUnclosedTags] returns is a subsequence of the
    tag-name tokens of the text: its entries are tokens of the text, in
    the order in which they occur. *)
Theorem getUnclosedTags_sublist (text : string) :
  exists tags : list string,
    getUnclosedTags text = Some tags /\ tags `sublist_of` getTagsFromText text.
Proof.
  exists (fold_left stackStep (getTagsFromText text) []). split.
  - apply visitTags_fold. apply NoDup_nil_2.
  - apply (fold_stackStep_sublist _ [] []). reflexivity.
Qed.

(** X6. Properly nested tags leave the stack as it was: on a stack of
    distinct names, visiting distinct new names and then the same names
    in reverse order returns the stack unchanged. *)
Theorem visitTags_nested (tags stack : list string) :
  NoDup (stack ++ tags) -> visitTags (tags ++ rev tags) stack = Some stack.
Proof.
  intros Hnd. rewrite visitTags_app, visitTags_push by assumption.
  now apply visitTags_pop.
Qed.

Lemma visitTags_nested_witness :
  visitTags (["a"; "b"] ++ rev ["a"; "b"]) ["root"] = Some ["root"].
Proof.
  apply (visitTags_nested ["a"; "b"] ["root"]).
  cbn. repeat (apply NoDup_cons; split;
    [intros Hin; repeat (apply elem_of_cons in Hin as [Hin | Hin]; [discriminate |]);
     now apply elem_of_nil in Hin |]).
  apply NoDup_nil_2.
Defined.

(** ** The parent tag *)

Section ParentTag.

Lemma at_index_elem_of {A : Type} (a : list A) (i : Z) (x : A) :
  Js.at_index a i = Some x -> x ∈ a.
Proof.
  unfold Js.at_index. destruct (i <? 0)%Z; [discriminate |].
  intros Hn. apply list_elem_of_In. eapply nth_error_In. exact Hn.
Qed.

Lemma sublist_elem_of (l1 l2 : list string) (x : string) :
  l1 `sublist_of` l2 -> x ∈ l1 -> x ∈ l2.
Proof. intros Hsub Hx. eapply elem_of_submseteq; [exact Hx | now apply sublist_submseteq]. Qed.

End ParentTag.

(** X7. [getParentTag] returns, and what it returns is [undefined] or an
    entry of the stack of unclosed tags up to the cursor, never the empty
    string; with no word under the cursor it is the top of that stack. *)
Theorem getParentTag_in_stack (model : ITextModel) (position : Position) :
  exists (tags : list string) (parent : option string),
    getUnclosedTags (getTextUntilPosition model position) = Some tags
    /\ getParentTag model position = Some parent
    /\ (forall tag, parent = Some tag -> tag ∈ tags /\ tag <> "")
    /\ (getWordAtPosition model position = None -> parent = lastOf tags).
Proof.
  set (text := getTextUntilPosition model position).
  set (tags := fold_left stackStep (getTagsFromText text) []).
  assert (Hrun : getUnclosedTags text = Some tags).
  { apply visitTags_fold. apply NoDup_nil_2. }
  assert (Hsub : tags `sublist_of` getTagsFromText text).
  { apply (fold_stackStep_sublist _ [] []). reflexivity. }
  assert (Hentry : forall i tag, Js.at_index tags i = Some tag -> tag ∈ tags /\ tag <> "").
  { intros i tag Hi. apply at_index_elem_of in Hi. split; [assumption |].
    pose proof (tags_tokens text) as Htok. rewrite Forall_forall in Htok.
    apply (Htok tag). now apply (sublist_elem_of tags). }
  assert (Hat : forall i,
             (getWordAtPosition model position = None -> i = (Js.len tags - 1)%Z) ->
             exists parent,
               Some (Js.at_index tags i) = Some parent
               /\ (forall tag, parent = Some tag -> tag ∈ tags /\ tag <> "")
               /\ (getWordAtPosition model position = None -> parent = lastOf tags)).
  { intros i Hi. exists (Js.at_index tags i). split; [reflexivity |]. split.
    - intros tag Htag. now apply (Hentry i).
    - intros Hnone. now rewrite (Hi Hnone). }
  exists tags. unfold getParentTag. fold text. rewrite Hrun. cbv zeta.
  destruct (getWordAtPosition model position) as [w |] eqn:Hword.
  - destruct (wordAtPositionIsEqualToLastUnclosedTag (Some w) tags).
    + destruct (Hat (Js.len tags - 2)%Z) as (p & Hp & H1 & H2); [discriminate |].
      exists p. split; [reflexivity | split; [exact Hp | split; assumption]].
    + destruct (match lastOf (getTagsFromText _) with Some _ => _ | None => _ end).
      * destruct (Hat (Js.len tags - 2)%Z) as (p & Hp & H1 & H2); [discriminate |].
        exists p. split; [reflexivity | split; [exact Hp | split; assumption]].
      * destruct (Hat (Js.len tags - 1)%Z) as (p & Hp & H1 & H2); [discriminate |].
        exists p. split; [reflexivity | split; [exact Hp | split; assumption]].
  - cbn [wordAtPositionIsEqualToLastUnclosedTag].
    destruct (Hat (Js.len tags - 1)%Z) as (p & Hp & H1 & H2); [reflexivity |].
    exists p. split; [reflexivity |]. split; [| split; assumption].
    rewrite <- Hp. now destruct (lastOf (getTagsFromText _)).
Qed.

(** ** Tags and their namespace prefix *)

Section Fields.

Lemma split_loop_fields (c : ascii) (after before piece : list ascii) :
  Js.split_loop
    (fun _ after0 => if Js.starts_with [c] after0 then Some 1 else None)
    before after piece 0
  = fields c after piece.
Proof.
  revert before piece. induction after as [| d after IH]; intros before piece.
  - reflexivity.
  - cbn [Js.split_loop Js.starts_with fields]. rewrite andb_true_r.
    destruct (Ascii.eqb c d); now rewrite IH.
Qed.

(** [s.split(c)] for a separator of one character. *)
Lemma split_fields (c : ascii) (s : string) :
  Js.split (String c "") s = fields c (list_ascii_of_string s) [].
Proof.
  unfold Js.split, Js.split_with. cbn [list_ascii_of_string length].
  destruct (list_ascii_of_string s) as [| d l] eqn:Hs.
  - apply list_ascii_of_string_nil in Hs. now subst s.
  - apply split_loop_fields.
Qed.

Lemma elem_of_rev (x : ascii) (l : list ascii) : x ∈ rev l <-> x ∈ l.
Proof. rewrite !list_elem_of_In. symmetry. apply in_rev. Qed.

Lemma lastOf_last (a : list string) : lastOf a = last a.
Proof.
  destruct (snoc_cases a) as [-> | (l & x & ->)]; [reflexivity |].
  now rewrite lastOf_snoc, last_snoc.
Qed.

Lemma fields_nonempty (c : ascii) (l piece : list ascii) : fields c l piece <> [].
Proof.
  revert piece. induction l as [| d l IH]; intros piece; cbn [fields]; [discriminate |].
  destruct (Ascii.eqb c d); [discriminate | apply IH].
Qed.

(** The last piece is what follows the last occurrence of [c]. *)
Lemma fields_last (c : ascii) (l piece : list ascii) :
  c ∉ piece ->
  exists pre suf,
    last (fields c l piece) = Some (string_of_list_ascii suf)
    /\ (c ∉ suf)
    /\ (rev piece ++ l = suf \/ rev piece ++ l = pre ++ c :: suf).
Proof.
  revert piece. induction l as [| d l IH]; intros piece Hpiece; cbn [fields].
  - exists [], (rev piece). split; [reflexivity |]. split.
    + intros Hin. apply Hpiece. now apply (proj1 (elem_of_rev _ _)) in Hin.
    + left. apply app_nil_r.
  - destruct (Ascii.eqb_spec c d) as [<- | Hne].
    + destruct (IH [] (not_elem_of_nil c)) as (pre & suf & Hlast & Hsuf & Hcase).
      destruct (fields c l []) as [| f fs] eqn:Hf; [now apply fields_nonempty in Hf |].
      rewrite last_cons_cons, Hlast.
      destruct Hcase as [Heq | Heq]; simpl in Heq.
      * exists (rev piece), suf. split; [reflexivity |]. split; [assumption |].
        right. now rewrite Heq.
      * exists (rev piece ++ c :: pre), suf. split; [reflexivity |].
        split; [assumption |]. right. rewrite Heq, <- app_assoc. reflexivity.
    + destruct (IH (d :: piece)) as (pre & suf & Hlast & Hsuf & Hcase).
      { intros Hin. apply elem_of_cons in Hin as [-> | Hin]; [congruence | contradiction]. }
      exists pre, suf. split; [assumption |]. split; [assumption |].
      simpl in Hcase. now rewrite <- app_assoc in Hcase.
Qed.

(** The first piece is what precedes the first occurrence of [c]; there
    are two pieces or more exactly when [c] occurs. *)
Lemma fields_first (c : ascii) (l piece : list ascii) :
  c ∉ piece ->
  ((c ∉ l) /\ fields c l piece = [string_of_list_ascii (rev piece ++ l)])
  \/ (exists first rest fs,
        rev piece ++ l = first ++ c :: rest /\ (c ∉ first)
        /\ fields c l piece = string_of_list_ascii first :: fs /\ fs <> []).
Proof.
  revert piece. induction l as [| d l IH]; intros piece Hpiece; cbn [fields].
  - left. split; [apply not_elem_of_nil | now rewrite app_nil_r].
  - destruct (Ascii.eqb_spec c d) as [<- | Hne].
    + right. exists (rev piece), l, (fields c l []).
      split; [reflexivity |]. split.
      * intros Hin. apply Hpiece. now apply (proj1 (elem_of_rev _ _)) in Hin.
      * split; [reflexivity | apply fields_nonempty].
    + destruct (IH (d :: piece)) as [[Hnot Hf] | (first & rest & fs & Heq & Hfirst & Hf & Hfs)].
      { intros Hin. apply elem_of_cons in Hin as [-> | Hin]; [congruence | contradiction]. }
      * left. split.
        -- intros Hin. apply elem_of_cons in Hin as [-> | Hin]; [congruence | contradiction].
        -- rewrite Hf. simpl. now rewrite <- app_assoc.
      * right. exists first, rest, fs. split; [| now repeat split].
        simpl in Heq. now rewrite <- app_assoc in Heq.
Qed.

End Fields.

Lemma getTagWithoutNamespace_suffix (tag : string) :
  exists pre suffix : string,
    getTagWithoutNamespace tag = Some suffix
    /\ (":"%char ∉ list_ascii_of_string suffix)
    /\ tag = pre +:+ suffix
    /\ (pre = "" \/ exists pre', pre = pre' +:+ ":").
Proof.
  unfold getTagWithoutNamespace. rewrite lastOf_last, split_fields.
  destruct (fields_last ":" (list_ascii_of_string tag) [] (not_elem_of_nil _))
    as (pre & suf & Hlast & Hsuf & Hcase).
  simpl in Hcase. destruct Hcase as [Heq | Heq].
  - exists "", (string_of_list_ascii suf). rewrite Hlast. split; [reflexivity |].
    split; [now rewrite list_ascii_of_string_of_list_ascii |].
    split; [| now left].
    now rewrite <- Heq, string_of_list_ascii_of_string.
  - exists (string_of_list_ascii (pre ++ [":"%char])), (string_of_list_ascii suf).
    rewrite Hlast. split; [reflexivity |].
    split; [now rewrite list_ascii_of_string_of_list_ascii |]. split.
    + rewrite <- string_of_list_ascii_app, <- app_assoc. simpl.
      now rewrite <- Heq, string_of_list_ascii_of_string.
    + right. exists (string_of_list_ascii pre). now rewrite string_of_list_ascii_app.
Qed.

(** X8. [getTagWithoutNamespace] returns what follows the last colon of
    the tag, the whole tag when it holds no colon: the result is defined,
    holds no colon, and the tag is the result after nothing or after a
    text that ends with a colon. *)
Theorem getTagWithoutNamespace_local (tag : string) :
  exists pre suffix : string,
    getTagWithoutNamespace tag = Some suffix
    /\ (":"%char ∉ list_ascii_of_string suffix)
    /\ tag = pre +:+ suffix
    /\ (pre = "" \/ exists pre', pre = pre' +:+ ":").
Proof. apply getTagWithoutNamespace_suffix. Qed.

(** X9. [getCompletionNamespace] returns what precedes the first colon
    of the last tag-name token of the line, and the empty string when the
    line has no token or the last one holds no colon; the result never
    holds a colon. *)
Theorem getCompletionNamespace_prefix (model : ITextModel) (position : Position) :
  let ns := getCompletionNamespace model position in
  (":"%char ∉ list_ascii_of_string ns)
  /\ match lastOf (getTagsFromText (getLineContent model (lineNumber position))) with
     | None => ns = ""
     | Some tag =>
         ((":"%char ∉ list_ascii_of_string tag) /\ ns = "")
         \/ exists rest, tag = ns +:+ ":" +:+ rest
     end.
Proof.
  unfold getCompletionNamespace.
  destruct (lastOf (getTagsFromText _)) as [tag |]; cbv zeta.
  2:{ split; [apply not_elem_of_nil | reflexivity]. }
  rewrite split_fields.
  destruct (fields_first ":" (list_ascii_of_string tag) [] (not_elem_of_nil _))
    as [[Hnot ->] | (first & rest & fs & Heq & Hfirst & -> & Hfs)].
  - cbn. split; [apply not_elem_of_nil |]. left. now split.
  - assert (Hlen : (1 <? Js.len (string_of_list_ascii first :: fs))%Z = true).
    { unfold Js.len. destruct fs; [contradiction |]. cbn [length]. apply Z.ltb_lt. lia. }
    rewrite Hlen. split; [now rewrite list_ascii_of_string_of_list_ascii |].
    right. exists (string_of_list_ascii rest). simpl in Heq.
    rewrite <- (string_of_list_ascii_of_string tag), Heq.
    now rewrite string_of_list_ascii_app.
Qed.

(** ** Schema locations and bindings *)

Section Locations.

Lemma at_index_middle (pre rest : list string) (x : string) :
  Js.at_index (pre ++ x :: rest) (Js.len pre) = Some x.
Proof.
  unfold Js.at_index, Js.len. destruct (Z.ltb_spec (Z.of_nat (length pre)) 0); [lia |].
  rewrite Nat2Z.id, nth_error_app2 by lia. now rewrite Nat.sub_diag.
Qed.

Lemma setLocations_parity (rest : list string) :
  forall (pre : list string) (m : Js.Map string),
    ((Js.len pre mod 2 = 0)%Z ->
     setLocations (pre ++ rest) rest (Js.len pre) m
     = fold_left (fun m '(path, uri) => Js.set m path uri) (locationPairs rest) m)
    /\ (forall pre' uri, pre = pre' ++ [uri] -> (Js.len pre mod 2 = 1)%Z ->
        setLocations (pre ++ rest) rest (Js.len pre) m
        = match rest with
          | path :: rest' =>
              fold_left (fun m '(path, uri) => Js.set m path uri) (locationPairs rest')
                (Js.set m path uri)
          | [] => m
          end).
Proof.
  induction rest as [| x rest IH]; intros pre m.
  - split; [reflexivity | intros; reflexivity].
  - assert (Hnext : Js.len (pre ++ [x]) = (Js.len pre + 1)%Z) by apply len_push.
    assert (Happ : pre ++ x :: rest = (pre ++ [x]) ++ rest) by now rewrite <- app_assoc.
    split.
    + intros Heven. cbn [setLocations].
      destruct (Z.eqb_spec (Js.len pre mod 2) 0) as [_ | Hne]; [| contradiction].
      rewrite <- Hnext, Happ.
      destruct (IH (pre ++ [x]) m) as [_ Hodd].
      rewrite (Hodd pre x eq_refl)
        by (rewrite Hnext; Z.to_euclidean_division_equations; lia).
      now destruct rest.
    + intros pre' uri -> Hodd. cbn [setLocations].
      destruct (Z.eqb_spec (Js.len (pre' ++ [uri]) mod 2) 0) as [Heq | _];
        [Z.to_euclidean_division_equations; lia |].
      assert (Hat : Js.at_index ((pre' ++ [uri]) ++ x :: rest)
                      (Js.len (pre' ++ [uri]) - 1) = Some uri).
      { rewrite len_push. replace (Js.len pre' + 1 - 1)%Z with (Js.len pre') by lia.
        rewrite <- app_assoc. apply at_index_middle. }
      rewrite Hat, <- Hnext, Happ.
      destruct (IH ((pre' ++ [uri]) ++ [x]) (Js.set m x uri)) as [Heven _].
      apply Heven. rewrite Hnext. Z.to_euclidean_division_equations; lia.
Qed.

End Locations.

(** X10. The tokens of a schema-location hint are read in pairs, a URI
    and then a path, each pair setting the path to the URI; a last token
    without partner sets nothing. *)
Theorem setLocations_in_pairs (tokens : list string) (m : Js.Map string) :
  setLocations tokens tokens 0 m
  = fold_left (fun m '(path, uri) => Js.set m path uri) (locationPairs tokens) m.
Proof.
  destruct (setLocations_parity tokens [] m) as [Heven _]. now apply Heven.
Qed.

(** X11. In the map of bindings every URI is a key once, and its binding
    holds the prefix declared for the URI and the path of the last schema
    location listed for it; a URI with no schema location is no key. *)
Theorem matchNamespaces_last_location (namespaces locations : Js.Map string) :
  NoDup (map fst (matchNamespacesAndNamespaceSchemaLocations namespaces locations))
  /\ forall uri : string,
       Js.get (matchNamespacesAndNamespaceSchemaLocations namespaces locations) uri =
         match lastPathOf uri locations with
         | Some p => Some {| prefix := Js.get namespaces uri; path := p |}
         | None => None
         end.
Proof.
  split.
  - apply (matched_keys_NoDup namespaces locations []). apply NoDup_nil_2.
  - intros uri. apply (matched_get namespaces locations []).
Qed.

(** ** Selection of the schema sources, further *)

Section SelectionMore.
Context `{XsdWorkerApi}.
Variable xsdManager : XsdManager.t.

Lemma select_loaded (bindings : Js.Map INamespaceInfo) (acc : list XsdWorker) :
  fold_left
    (fun xsdWorkers '(namespace, namespaceInfo) =>
       if XsdManager.has xsdManager (path namespaceInfo) || String.eqb namespace ""
       then
         match XsdManager.get xsdManager (path namespaceInfo) with
         | Some xsdWorker => xsdWorkers ++ [withNamespace xsdWorker (prefix namespaceInfo)]
         | None => xsdWorkers
         end
       else xsdWorkers)
    bindings acc
  = acc ++ flat_map (loadedSource xsdManager) bindings.
Proof.
  revert acc. induction bindings as [| [key info] bindings IH]; intros acc.
  - simpl. now rewrite app_nil_r.
  - cbn [fold_left flat_map]. rewrite IH. unfold loadedSource at 2. cbn [snd].
    unfold XsdManager.has, XsdManager.get.
    destruct (xsdManager !! path info) as [w |] eqn:Hw.
    + rewrite bool_decide_eq_true_2 by eauto. cbn [orb]. now rewrite <- app_assoc.
    + destruct (_ || _); now rewrite app_nil_l.
Qed.

(** X12. With no prefix requested, [getXsdWorkersForNamespace] returns,
    in the order of the bindings, the source of every binding whose path
    is loaded, bound to the prefix of its binding, and nothing else; the
    test of the key against the empty string adds no source. *)
Theorem getXsdWorkersForNamespace_unprefixed (bindings : Js.Map INamespaceInfo) :
  getXsdWorkersForNamespace xsdManager bindings (Some "")
  = flat_map (loadedSource xsdManager) bindings
  /\ getXsdWorkersForNamespace xsdManager bindings None
     = flat_map (loadedSource xsdManager) bindings.
Proof.
  unfold getXsdWorkersForNamespace. cbn [Js.truthy String.eqb negb].
  split; apply (select_loaded bindings []).
Qed.

(** X13. With a prefix requested, [getXsdWorkersForNamespace] returns at
    most one source: the one loaded for the path of the binding found
    under the prefix as key of the map, bound to the requested prefix. *)
Theorem getXsdWorkersForNamespace_prefixed (bindings : Js.Map INamespaceInfo)
    (requested : string) (xsdWorker : XsdWorker) :
  requested <> "" ->
  xsdWorker ∈ getXsdWorkersForNamespace xsdManager bindings (Some requested) ->
  exists info loaded,
    Js.get bindings requested = Some info
    /\ XsdManager.get xsdManager (path info) = Some loaded
    /\ getXsdWorkersForNamespace xsdManager bindings (Some requested)
       = [withNamespace loaded (Some requested)].
Proof.
  intros Hne. rewrite getXsdWorkersForNamespace_requested by assumption.
  destruct (Js.get bindings requested) as [info |];
    [| intros Hin; now apply elem_of_nil in Hin].
  destruct (XsdManager.get xsdManager (path info)) as [w |] eqn:Hw;
    [| intros Hin; now apply elem_of_nil in Hin].
  intros _. now exists info, w.
Qed.

Lemma fold_completions (f : XsdWorker -> list ICompletion) (workers : list XsdWorker)
    (acc : list ICompletion) :
  fold_left (fun completions xsdWorker => completions ++ f xsdWorker) workers acc
  = acc ++ flat_map f workers.
Proof.
  revert acc. induction workers as [| w workers IH]; intros acc; simpl.
  - now rewrite app_nil_r.
  - now rewrite IH, <- app_assoc.
Qed.

(** X14. A request classified [closingElement] gets exactly one
    suggestion, of kind [Property] and detail [Close tag], whose label
    and inserted text are what [getParentTag] returns, namespace prefix
    included; no schema source is asked. *)
Theorem getCompletions_closing (model : ITextModel) (position : Position)
    (context : CompletionContext) :
  getCompletionType (getLineContent model (lineNumber position)) context
    = CompletionType.closingElement ->
  exists parent : option string,
    getParentTag model position = Some parent
    /\ getCompletions xsdManager model position context =
         Some [ {| label := parent;
                   kind := CompletionItemKind.Property;
                   detail := "Close tag";
                   insertText := parent;
                   documentation :=
                     String.append "Closes the unclosed "
                       (String.append (interpolate parent) " tag in this file.") |} ].
Proof.
  intros Hkind. destruct (getParentTag_returns model position) as [parent Hparent].
  exists parent. split; [assumption |].
  unfold getCompletions. now rewrite Hkind, Hparent.
Qed.

(** X15. A request of a kind other than [none] and [closingElement]
    gets the suggestions of the selected schema sources, one source after
    the other in the order of their selection; each source is asked with
    the kind of the request and with a parent tag that holds no colon. *)
Theorem getCompletions_sources (model : ITextModel) (position : Position)
    (context : CompletionContext) :
  let kind := getCompletionType (getLineContent model (lineNumber position)) context in
  kind <> CompletionType.none ->
  kind <> CompletionType.closingElement ->
  exists parent : option string,
    (forall tag, parent = Some tag -> ":"%char ∉ list_ascii_of_string tag)
    /\ getCompletions xsdManager model position context =
         Some (flat_map (fun xsdWorker => doCompletion xsdWorker kind parent)
                 (getXsdWorkersForNamespace xsdManager (getXsdNamespaces model)
                    (Some (getCompletionNamespace model position)))).
Proof.
  intros kind Hnone Hclosing.
  destruct (getParentTag_returns model position) as [parentTag Hparent].
  set (parent := if Js.truthy parentTag
                 then match parentTag with
                      | Some tag => getTagWithoutNamespace tag
                      | None => parentTag
                      end
                 else parentTag).
  exists parent. split.
  - intros tag Htag. subst parent. destruct parentTag as [t |]; [| discriminate].
    cbn [Js.truthy] in Htag. destruct (String.eqb_spec t "") as [-> | _].
    + cbn [negb] in Htag. injection Htag as <-. apply not_elem_of_nil.
    + cbn [negb] in Htag.
      destruct (getTagWithoutNamespace_suffix t) as (pre & suffix & Hs & Hcolon & _).
      congruence.
  - unfold getCompletions. fold kind. rewrite Hparent. fold parent.
    rewrite (fold_completions (fun w => doCompletion w kind parent)).
    destruct kind; try reflexivity; contradiction.
Qed.

(** X16. [getCompletions] returns on every request. *)
Theorem getCompletions_returns (model : ITextModel) (position : Position)
    (context : CompletionContext) :
  exists completions : list ICompletion,
    getCompletions xsdManager model position context = Some completions.
Proof.
  unfold getCompletions.
  destruct (getParentTag_returns model position) as [parentTag ->].
  destruct (getCompletionType _ _); eauto.
Qed.

End SelectionMore.

Lemma getXsdWorkersForNamespace_prefixed_witness :
  getXsdWorkersForNamespace exampleManager
    [("ns", {| prefix := Some "ns"; path := "schema/a.xsd" |})] (Some "ns")
  = [("schema/a.xsd", Some "ns")].
Proof.
  destruct (getXsdWorkersForNamespace_prefixed (H := stubWorker) exampleManager
              [("ns", {| prefix := Some "ns"; path := "schema/a.xsd" |})] "ns"
              ("schema/a.xsd", Some "ns")) as (info & loaded & Hget & Hload & Heq).
  - discriminate.
  - now left.
  - rewrite Heq. injection Hget as <-. now injection Hload as <-.
Defined.

Lemma getCompletions_closing_witness :
  getCompletions (H := stubWorker) exampleManager
    (oneLineModel "<x:a>text</" None) (endOf "<x:a>text</") (typed "/")
  = Some (getClosingElementCompletion (Some "x:a")).
Proof.
  destruct (getCompletions_closing (H := stubWorker) exampleManager
              (oneLineModel "<x:a>text</" None) (endOf "<x:a>text</") (typed "/"))
    as (parent & Hparent & Heq); [reflexivity |].
  rewrite Heq. now injection Hparent as <-.
Defined.

Lemma getCompletions_sources_witness :
  getCompletions (H := stubWorker) exampleManager
    (oneLineModel (String.append "<" exampleDocument) None)
    {| lineNumber := 1; column := 2 |} (typed "<")
  = Some (doCompletion (XsdWorkerApi := stubWorker) ("schema/a.xsd", Some "ns")
            CompletionType.element None).
Proof.
  destruct (getCompletions_sources (H := stubWorker) exampleManager
              (oneLineModel (String.append "<" exampleDocument) None)
              {| lineNumber := 1; column := 2 |} (typed "<"))
    as (parent & _ & Heq); [discriminate | discriminate |].
  rewrite Heq. reflexivity.
Defined.

(** ** The manager of the schema sources *)

Section ManagerFacts.
Context `{XsdWorkerApi}.

Lemma has_get (m : XsdManager.t) (p : string) :
  XsdManager.has m p = match XsdManager.get m p with Some _ => true | None => false end.
Proof.
  unfold XsdManager.has, XsdManager.get. destruct (m !! p) eqn:Hp.
  - apply bool_decide_eq_true_2. eauto.
  - apply bool_decide_eq_false_2. intros [? ?]. discriminate.
Qed.

(** X17. After [set] the manager holds, under the path of the schema, a
    source made from that schema, whatever it held there before; every
    other path is as it was; [has] says whether [get] finds a source. *)
Theorem manager_set_get (m : XsdManager.t) (xsd : IXsd) (p : string) :
  XsdManager.get (XsdManager.set m xsd) p
  = (if String.eqb p (xsdPath xsd) then Some (newXsdWorker xsd) else XsdManager.get m p)
  /\ XsdManager.has (XsdManager.set m xsd) p
     = (String.eqb p (xsdPath xsd) || XsdManager.has m p).
Proof.
  assert (Hget : XsdManager.get (XsdManager.set m xsd) p
                 = if String.eqb p (xsdPath xsd) then Some (newXsdWorker xsd)
                   else XsdManager.get m p).
  { unfold XsdManager.get, XsdManager.set.
    destruct (String.eqb_spec p (xsdPath xsd)) as [-> | Hne].
    - exact (lookup_insert_eq (M := gmap string) (m : gmap string XsdWorker)
               (xsdPath xsd) (newXsdWorker xsd)).
    - apply (lookup_insert_ne (M := gmap string) (m : gmap string XsdWorker)).
      congruence. }
  split; [exact Hget |].
  rewrite !has_get, Hget. now destruct (String.eqb p (xsdPath xsd)).
Qed.

(** X18. [delete] tells whether the path had a source, removes it and
    leaves every other path as it was; [update] gives the same manager as
    [set] alone. *)
Theorem manager_delete_update (m : XsdManager.t) (xsd : IXsd) (p q : string) :
  fst (XsdManager.delete m p) = XsdManager.has m p
  /\ XsdManager.get (snd (XsdManager.delete m p)) q
     = (if String.eqb q p then None else XsdManager.get m q)
  /\ XsdManager.update m xsd = XsdManager.set m xsd.
Proof.
  split; [reflexivity |]. split.
  - unfold XsdManager.get, XsdManager.delete. cbn [snd].
    destruct (String.eqb_spec q p) as [-> | Hne].
    + exact (lookup_delete_eq (M := gmap string) (m : gmap string XsdWorker) p).
    + apply (lookup_delete_ne (M := gmap string) (m : gmap string XsdWorker)).
      congruence.
  - unfold XsdManager.update, XsdManager.set, XsdManager.delete. cbn [snd].
    exact (insert_delete_eq (M := gmap string) (m : gmap string XsdWorker)
             (xsdPath xsd) (newXsdWorker xsd)).
Qed.

End ManagerFacts.

(** ** The suggestion cache, further *)

Section CacheMore.
Context {DocumentNode : Type}.
Variable xsd : XsdParser.t DocumentNode.

Lemma keyOfQuery_queryOf (c : Cache.request) :
  keyOfQuery (Cache.queryOf c) = Cache.keyOf c.
Proof. now destruct c as [[p |] | e]. Qed.

Lemma serve_queried (c : Cache.request) (s : @Cache.state DocumentNode) :
  wellIndexed s -> queried s -> queried (snd (Cache.serve xsd c s)).
Proof.
  intros Hwi [Hnd Hst].
  destruct (Cache.stored s (Cache.keyOf c)) as [v |] eqn:Hs.
  - rewrite (serve_hit xsd c s v Hs). now split.
  - rewrite (serve_miss xsd c s Hs). cbn [snd]. split.
    + cbn [afterMiss Cache.calls]. apply NoDup_app.
      split; [assumption |]. split; [| apply NoDup_singleton].
      intros q Hq Hq'. apply list_elem_of_singleton in Hq'. subst q.
      apply Hst in Hq as [v Hv]. rewrite keyOfQuery_queryOf in Hv. congruence.
    + intros q Hq. cbn [afterMiss Cache.calls] in Hq.
      apply elem_of_app in Hq as [Hq | Hq].
      * destruct (Hst q Hq) as [v Hv]. exists v.
        rewrite stored_afterMiss_other; [assumption | assumption |].
        intros Heq. rewrite Heq in Hv. congruence.
      * apply list_elem_of_singleton in Hq. subst q.
        rewrite keyOfQuery_queryOf, stored_afterMiss_same. eauto.
Qed.

Lemma serveAll_queried (cs : list Cache.request) (s : @Cache.state DocumentNode) :
  wellIndexed s -> queried s -> queried (Cache.serveAll xsd cs s).
Proof.
  revert s. induction cs as [| c cs IH]; intros s Hwi Hq; [assumption |].
  rewrite serveAll_cons. apply IH.
  - now destruct (serve_step xsd c s Hwi) as (v & _ & _ & Hwi' & _).
  - now apply serve_queried.
Qed.

(** X19. However the two methods are called on an instance, the parser
    is never asked the same query twice, and every query it is asked is
    the query of one of the calls. *)
Theorem cache_never_repeats_query (cs : list Cache.request) :
  NoDup (Cache.calls (Cache.serveAll xsd cs Cache.create))
  /\ forall q, q ∈ Cache.calls (Cache.serveAll xsd cs Cache.create) ->
               exists c, c ∈ cs /\ Cache.queryOf c = q.
Proof.
  split.
  - apply serveAll_queried; [apply wellIndexed_create |].
    split; [apply NoDup_nil_2 | intros q Hq; now apply elem_of_nil in Hq].
  - intros q Hq.
    apply serveAll_calls_origin in Hq as [Hq | (c & Hin & Hc & _)];
      [now apply elem_of_nil in Hq | now exists c | apply wellIndexed_create].
Qed.

Lemma keyOf_plain (c c' : Cache.request) :
  c <> Cache.Elements None -> c <> Cache.Elements (Some "rootElements") ->
  Cache.keyOf c' = Cache.keyOf c -> c' = c.
Proof.
  destruct c as [[p |] | e], c' as [[p' |] | e']; cbn; intros H1 H2 Hk;
    try discriminate; congruence.
Qed.

Lemma cache_answers_parser_helper (earlier : list Cache.request) (c : Cache.request) :
  c <> Cache.Elements None ->
  c <> Cache.Elements (Some "rootElements") ->
  fst (Cache.serve xsd c (Cache.serveAll xsd earlier Cache.create))
  = Some (XsdParser.answer xsd (Cache.queryOf c)).
Proof.
  intros H1 H2.
  assert (Hwi0 : wellIndexed (Cache.serveAll xsd earlier Cache.create))
    by apply serveAll_wellIndexed, wellIndexed_create.
  destruct (serve_step xsd c _ Hwi0) as (v & Hserve & Hstored & _).
  rewrite Hserve. cbn [fst]. f_equal.
  apply (serveAll_stored_origin xsd [c]) in Hstored
    as [Hold | (c' & Hin & Hk & ->)]; [| | assumption].
  - apply serveAll_stored_origin in Hold as [Hold | (c' & Hin & Hk & ->)];
      [| | apply wellIndexed_create].
    + now rewrite stored_create in Hold.
    + now rewrite (keyOf_plain c c' H1 H2 Hk).
  - apply list_elem_of_singleton in Hin. now subst c'.
Qed.

(** X20. Whatever calls came earlier, [attributes] of an element, and
    [elements] of a parent whose name is not [rootElements], return the
    answer of the parser to the query of the call: calls for other keys,
    and calls for the same name in the other collection, never change
    what is returned. *)
Theorem cache_answers_parser (earlier : list Cache.request) (c : Cache.request) :
  c <> Cache.Elements None ->
  c <> Cache.Elements (Some "rootElements") ->
  fst (Cache.serve xsd c (Cache.serveAll xsd earlier Cache.create))
  = Some (XsdParser.answer xsd (Cache.queryOf c)).
Proof. apply cache_answers_parser_helper. Qed.

(** X21. The key [rootElements] can be taken by a parent of that name:
    when [elements] of the name [rootElements] is called before any call
    of [elements] with no parent, every later call of [elements] with no
    parent returns the sub-elements of [rootElements], and the parser is
    never asked for its root elements. *)
Theorem rootElements_key_taken (earlier later : list Cache.request) :
  Cache.Elements None ∉ earlier ->
  let s0 := Cache.serveAll xsd earlier Cache.create in
  let s1 := snd (Cache.serve xsd (Cache.Elements (Some "rootElements")) s0) in
  let s2 := Cache.serveAll xsd later s1 in
  Cache.serve xsd (Cache.Elements None) s2
  = (Some (XsdParser.getSubElements xsd "rootElements"), s2)
  /\ XsdParser.RootElements ∉ Cache.calls s2.
Proof.
  intros Hnever s0 s1 s2.
  assert (Hwi0 : wellIndexed s0) by apply serveAll_wellIndexed, wellIndexed_create.
  destruct (serve_step xsd (Cache.Elements (Some "rootElements")) s0 Hwi0)
    as (v & Hserve & Hstored & Hwi1 & _).
  fold s1 in Hstored, Hwi1. cbn [Cache.keyOf] in Hstored.
  assert (Hv : v = XsdParser.getSubElements xsd "rootElements").
  { pose proof Hstored as Horigin.
    apply (serveAll_stored_origin xsd [Cache.Elements (Some "rootElements")] s0)
      in Horigin as [Hold | (c & Hin & Hk & ->)]; [| | assumption].
    - apply serveAll_stored_origin in Hold as [Hold | (c & Hin & Hk & ->)];
        [| | apply wellIndexed_create].
      + now rewrite stored_create in Hold.
      + destruct c as [[p |] | e]; cbn in Hk; try discriminate.
        * now injection Hk as ->.
        * contradiction.
    - apply list_elem_of_singleton in Hin. now subst c. }
  subst v. split.
  - apply serve_hit. cbn [Cache.keyOf]. now apply serveAll_stored.
  - intros Hq. apply serveAll_calls_origin in Hq as [Hq | (c & Hin & Hc & Hnone)];
      [| | assumption].
    + apply (serveAll_calls_origin xsd [Cache.Elements (Some "rootElements")] s0) in Hq
        as [Hq | (c & Hin & Hc & _)]; [| | assumption].
      * apply serveAll_calls_origin in Hq as [Hq | (c & Hin & Hc & _)];
          [| | apply wellIndexed_create].
        -- now apply elem_of_nil in Hq.
        -- destruct c as [[p |] | e]; try discriminate. contradiction.
      * apply list_elem_of_singleton in Hin. now subst c.
    + destruct c as [[p |] | e]; try discriminate.
      cbn [Cache.keyOf] in Hnone. congruence.
Qed.

End CacheMore.

Lemma cache_answers_parser_witness :
  fst (Cache.serve stubParser (Cache.Elements (Some "book"))
         (Cache.serveAll stubParser
            [Cache.Attributes "book"; Cache.Elements None] Cache.create))
  = Some ["book-child"].
Proof.
  apply (cache_answers_parser stubParser
           [Cache.Attributes "book"; Cache.Elements None]
           (Cache.Elements (Some "book"))); discriminate.
Defined.

Lemma rootElements_key_taken_witness :
  let s1 := snd (Cache.serve stubParser (Cache.Elements (Some "rootElements"))
                   (Cache.serveAll stubParser [Cache.Attributes "book"] Cache.create)) in
  let s2 := Cache.serveAll stubParser [Cache.Elements (Some "book")] s1 in
  Cache.serve stubParser (Cache.Elements None) s2 = (Some ["rootElements-child"], s2)
  /\ XsdParser.RootElements ∉ Cache.calls s2.
Proof.
  apply (rootElements_key_taken stubParser [Cache.Attributes "book"]
           [Cache.Elements (Some "book")]).
  intros Hin. apply list_elem_of_singleton in Hin. discriminate.
Defined.

(** ** The suggester *)

Section SuggesterFacts.
Variable xsd : XsdParser.t DocumentNode.t.
Variable turndown : string -> string.

Lemma toString_inj (n n' : nat) :
  CodeSuggester.toString n = CodeSuggester.toString n' -> n = n'.
Proof.
  unfold CodeSuggester.toString. intros Heq.
  apply Unsigned.to_uint_inj.
  assert (Hsome : Some (Nat.to_uint n) = Some (Nat.to_uint n')).
  { rewrite <- !NilEmpty.usu. now rewrite Heq. }
  now injection Hsome.
Qed.

Lemma sortText_parseElements (nodes : list DocumentNode.t) (withoutTag incomplete : bool) :
  map CodeSuggester.sortText (CodeSuggester.parseElements nodes withoutTag incomplete)
  = map (fun n => Some (CodeSuggester.toString n)) (seq 0 (length nodes)).
Proof.
  unfold CodeSuggester.parseElements.
  change (map CodeSuggester.sortText) with (fmap (M := list) CodeSuggester.sortText).
  rewrite fmap_imap. cbn [CodeSuggester.sortText compose].
  apply (imap_seq_0 nodes (fun n => Some (CodeSuggester.toString n))).
Qed.

(** X22. [parseElements] makes one item per node, in the order of the
    nodes: the item at a position is labelled with the name of the node
    at that position and sorts under the decimal numeral of the position,
    so no two items sort under the same text. *)
Theorem parseElements_in_order (nodes : list DocumentNode.t)
    (withoutTag incomplete : bool) :
  let items := CodeSuggester.parseElements nodes withoutTag incomplete in
  length items = length nodes
  /\ (forall n, CodeSuggester.label <$> items !! n = DocumentNode.name <$> nodes !! n)
  /\ (forall n, CodeSuggester.sortText <$> items !! n
                = (fun _ => Some (CodeSuggester.toString n)) <$> nodes !! n)
  /\ NoDup (map CodeSuggester.sortText items).
Proof.
  cbv zeta. split; [apply length_imap |]. split; [| split].
  - intros n. unfold CodeSuggester.parseElements. rewrite list_lookup_imap.
    now destruct (nodes !! n).
  - intros n. unfold CodeSuggester.parseElements. rewrite list_lookup_imap.
    now destruct (nodes !! n).
  - rewrite sortText_parseElements.
    assert (Hinj : Inj (=) (=) (fun n => Some (CodeSuggester.toString n))).
    { intros n n' Heq. injection Heq as Heq. now apply toString_inj. }
    apply (NoDup_fmap_2 (fun n => Some (CodeSuggester.toString n))), NoDup_seq.
Qed.

(** X23. Whatever was asked of the suggester before, [attributes] of an
    element returns the items made from the answer of the parser for
    that element: one item per attribute, labelled with its name,
    inserting the name with an empty quoted value, preselected exactly
    when the attribute is required. *)
Theorem suggester_attributes (earlier : list Cache.request) (element : string) :
  let s := Cache.serveAll xsd earlier Cache.create in
  let attrs := XsdParser.getAttributesForElement xsd element in
  fst (CodeSuggester.attributes xsd turndown element s)
  = Some (CodeSuggester.parseAttributes turndown attrs)
  /\ map CodeSuggester.label (CodeSuggester.parseAttributes turndown attrs)
     = map DocumentNode.name attrs
  /\ map CodeSuggester.preselect (CodeSuggester.parseAttributes turndown attrs)
     = map (fun a => Some (DocumentNode.isRequired a)) attrs
  /\ map CodeSuggester.insertText (CodeSuggester.parseAttributes turndown attrs)
     = map (fun a => DocumentNode.name a +:+ dq "='${1}'") attrs.
Proof.
  cbv zeta. split; [| split; [| split]].
  - pose proof (cache_answers_parser_helper xsd earlier (Cache.Attributes element)) as Hc.
    unfold CodeSuggester.attributes, Cache.bind.
    change (Cache.attributes xsd element) with (Cache.serve xsd (Cache.Attributes element)).
    destruct (Cache.serve xsd (Cache.Attributes element) _) as [r s'].
    cbn [fst] in Hc. rewrite Hc by discriminate. reflexivity.
  - unfold CodeSuggester.parseAttributes. rewrite map_map. reflexivity.
  - unfold CodeSuggester.parseAttributes. rewrite map_map. reflexivity.
  - unfold CodeSuggester.parseAttributes. rewrite map_map. reflexivity.
Qed.

End SuggesterFacts.

(** ** Declared prefixes *)

Section Prefixes.

(** A literal run of characters matches exactly the text it spells. *)
Lemma rmatch_chars {A : Type} (cs : list ascii) (k : cursor -> option A)
    (b a : list ascii) :
  rmatch (RChars cs) A true (b, a) k =
    if Js.starts_with cs a then k (rev cs ++ b, skipn (length cs) a) else None.
Proof.
  revert b a. induction cs as [| c cs IH]; intros b a; [reflexivity |].
  destruct cs as [| c' cs].
  - cbn [RChars]. rewrite rmatch_char, one_fwd. destruct a as [| d a]; [reflexivity |].
    cbn [Js.starts_with]. rewrite andb_true_r.
    destruct (Ascii.eqb c d) eqn:Hcd; [| reflexivity].
    apply Ascii.eqb_eq in Hcd. now subst d.
  - change (RChars (c :: c' :: cs)) with (RSeq (RChar c) (RChars (c' :: cs))).
    rewrite rmatch_seq, rmatch_char, one_fwd. destruct a as [| d a]; [reflexivity |].
    change (Js.starts_with (c :: c' :: cs) (d :: a))
      with (Ascii.eqb c d && Js.starts_with (c' :: cs) a).
    change (skipn (length (c :: c' :: cs)) (d :: a))
      with (skipn (length (c' :: cs)) a).
    destruct (Ascii.eqb c d) eqn:Hcd; [| reflexivity].
    apply Ascii.eqb_eq in Hcd. subst d. rewrite IH. cbn [andb].
    destruct (Js.starts_with (c' :: cs) a); [| reflexivity].
    change (rev (c :: c' :: cs)) with (rev (c' :: cs) ++ [c]).
    now rewrite <- app_assoc.
Qed.

Lemma starts_with_app (p l rest : list ascii) :
  Js.starts_with p l = true -> Js.starts_with p (l ++ rest) = true.
Proof.
  revert l. induction p as [| c p IH]; intros l; [reflexivity |].
  destruct l as [| d l]; [discriminate |]. cbn [Js.starts_with app].
  intros Hs. apply andb_true_iff in Hs as [-> Hs]. now apply IH.
Qed.

(** What one attempt of [regexForNamespaces] consumes does not start
    with a reserved prefix. *)
Lemma match_at_namespaces_consumed (b a : list ascii) (z' : cursor) :
  match_at regexForNamespaces (b, a) = Some z' ->
  Js.starts_with (list_ascii_of_string "xsi") a = false
  /\ Js.starts_with (list_ascii_of_string "html") a = false.
Proof.
  unfold match_at, regexForNamespaces. rewrite rmatch_seq, rmatch_look.
  destruct (rmatch _ unit _ _ _); [| discriminate]. cbn [negb].
  rewrite rmatch_seq, rmatch_look. cbn [negb rmatch]. unfold RStr.
  rewrite !rmatch_chars.
  destruct (Js.starts_with (list_ascii_of_string "xsi") a); [discriminate |].
  destruct (Js.starts_with (list_ascii_of_string "html") a); [discriminate |].
  now split.
Qed.

(** The first piece of a split is a prefix of the text. *)
Lemma split_loop_head (sep_at : list ascii -> list ascii -> option nat)
    (after before piece : list ascii) :
  exists p q fs,
    Js.split_loop sep_at before after piece 0
    = string_of_list_ascii (rev piece ++ p) :: fs
    /\ after = p ++ q.
Proof.
  revert before piece. induction after as [| c after IH]; intros before piece.
  - exists [], [], []. split; [now rewrite app_nil_r | reflexivity].
  - cbn [Js.split_loop].
    destruct (sep_at before (c :: after)) as [[| n] |].
    + destruct piece as [| d piece].
      * destruct (IH (c :: before) [c]) as (p & q & fs & -> & ->).
        now exists (c :: p), q, fs.
      * exists [], (c :: after), (Js.split_loop sep_at (c :: before) after [c] 0).
        split; [now rewrite app_nil_r | reflexivity].
    + exists [], (c :: after), (Js.split_loop sep_at (c :: before) after [] n).
      split; [now rewrite app_nil_r | reflexivity].
    + destruct (IH (c :: before) (c :: piece)) as (p & q & fs & -> & ->).
      exists (c :: p), q, fs. split; [| reflexivity].
      simpl. now rewrite <- app_assoc.
Qed.

Lemma split_head (sep s part0 : string) (parts : list string) :
  Js.split sep s = part0 :: parts ->
  exists q, list_ascii_of_string s = list_ascii_of_string part0 ++ q.
Proof.
  unfold Js.split, Js.split_with.
  destruct (list_ascii_of_string s) as [| c l] eqn:Hs.
  - destruct (if Js.starts_with _ _ then _ else _); [discriminate |].
    intros Heq. injection Heq as <- _. exists []. now rewrite Hs.
  - destruct (split_loop_head
                (fun _ after => if Js.starts_with (list_ascii_of_string sep) after
                                then Some (length (list_ascii_of_string sep)) else None)
                (c :: l) [] []) as (p & q & fs & Hsplit & Hpq).
    rewrite Hsplit. intros Heq. injection Heq as <- _. exists q.
    now rewrite list_ascii_of_string_of_list_ascii.
Qed.

Lemma values_set (P : string -> Prop) (m : Js.Map string) (k v : string) :
  Forall P (map snd m) -> P v -> Forall P (map snd (Js.set m k v)).
Proof.
  intros Hall Hv. induction m as [| [k0 v0] m IH]; simpl.
  - now constructor.
  - simpl in Hall. apply Forall_cons in Hall as [H0 Hall].
    destruct (String.eqb k0 k); simpl; constructor; auto.
Qed.

Lemma get_value (P : string -> Prop) (m : Js.Map string) (k v : string) :
  Forall P (map snd m) -> Js.get m k = Some v -> P v.
Proof.
  induction m as [| [k0 v0] m IH]; simpl; [discriminate |].
  intros Hall. apply Forall_cons in Hall as [H0 Hall].
  destruct (String.eqb k0 k); [now intros [= <-] | now apply IH].
Qed.

Lemma namespaces_unreserved (text : string) :
  Forall unreserved (map snd (getNamespaces text)).
Proof.
  unfold getNamespaces.
  assert (Hsecond : forall l m, Forall unreserved (map snd m) ->
            Forall unreserved
              (map snd (fold_left (fun namespaceMap match_ => Js.set namespaceMap match_ "")
                          l m))).
  { induction l as [| x l IH]; intros m Hm; [assumption |].
    cbn [fold_left]. apply IH. apply values_set; [assumption | now split]. }
  apply Hsecond.
  assert (Hmatches : Forall (fun s => unreserved s)
                       (getMatchesForRegex text regexForNamespaces)).
  { unfold getMatchesForRegex, match_all. apply scan_Forall. intros b a z' Hm.
    apply match_at_namespaces_consumed in Hm as [Hx Hh]. unfold unreserved.
    rewrite list_ascii_of_string_of_list_ascii.
    split.
    - destruct (Js.starts_with _ (firstn _ a)) eqn:Hs; [| reflexivity].
      rewrite <- (firstn_skipn (consumed (b, a) z') a) in Hx.
      now rewrite (starts_with_app _ _ _ Hs) in Hx.
    - destruct (Js.starts_with _ (firstn _ a)) eqn:Hs; [| reflexivity].
      rewrite <- (firstn_skipn (consumed (b, a) z') a) in Hh.
      now rewrite (starts_with_app _ _ _ Hs) in Hh. }
  revert Hmatches. generalize (getMatchesForRegex text regexForNamespaces).
  assert (Hnil : Forall unreserved (map snd (@nil (string * string)))) by constructor.
  revert Hnil. generalize (@nil (string * string)).
  intros m Hm l. revert m Hm. induction l as [| x l IH]; intros m Hm Hl; [assumption |].
  apply Forall_cons in Hl as [Hx Hl]. cbn [fold_left]. apply IH; [| assumption].
  destruct (Js.split (dq "='") x) as [| part0 [| part1 parts]] eqn:Hsplit;
    try assumption.
  apply values_set; [assumption |].
  apply split_head in Hsplit as [q Hq]. destruct Hx as [Hxsi Hhtml].
  rewrite Hq in Hxsi, Hhtml. split.
  - destruct (Js.starts_with _ (list_ascii_of_string part0)) eqn:Hs; [| reflexivity].
    now rewrite (starts_with_app _ _ _ Hs) in Hxsi.
  - destruct (Js.starts_with _ (list_ascii_of_string part0)) eqn:Hs; [| reflexivity].
    now rewrite (starts_with_app _ _ _ Hs) in Hhtml.
Qed.

End Prefixes.

(** X24. No prefix that [getNamespaces] records for a namespace URI
    starts with [xsi] or with [html]. *)
Theorem getNamespaces_reserved (text uri declared : string) :
  Js.get (getNamespaces text) uri = Some declared ->
  String.prefix "xsi" declared = false /\ String.prefix "html" declared = false.
Proof.
  intros Hget.
  destruct (get_value unreserved _ _ _ (namespaces_unreserved text) Hget) as [Hx Hh].
  assert (Hprefix : forall p s, String.prefix p s
                                = Js.starts_with (list_ascii_of_string p)
                                    (list_ascii_of_string s)).
  { induction p as [| c p IH]; intros s; [now destruct s |].
    destruct s as [| d s]; [reflexivity |]. cbn [String.prefix list_ascii_of_string
      Js.starts_with].
    rewrite <- IH. destruct (Ascii.eqb_spec c d) as [-> | Hne].
    - destruct (ascii_dec d d); [reflexivity | contradiction].
    - destruct (ascii_dec c d); [contradiction | reflexivity]. }
  now rewrite !Hprefix.
Qed.

Lemma getNamespaces_reserved_witness :
  String.prefix "xsi" "ns" = false /\ String.prefix "html" "ns" = false.
Proof.
  apply (getNamespaces_reserved exampleDocument "http://example/ns" "ns").
  reflexivity.
Defined.
